(** * Conversation memory over the event stream

    A shallow embedding of [openhands/memory/conversation_memory.py]
    (class [ConversationMemory]) together with the part of the event
    stream it reads: events, the id counter, subscriber registrations and
    the traversal [get_events].

    Event ids are Python ints, modelled as [Z].  Dictionaries are finite
    maps ([gmap]).  Generators are modelled by the list of the events
    they yield, in the order they yield them. *)

From Stdlib Require Import ZArith List Bool Lia Sorted.
From stdpp Require Import gmap strings list fin_maps sorting.

Local Open Scope Z_scope.

(** ** Events *)

Inductive EventSource := USER | AGENT.

(** The action classes named by the sources ([MessageAction],
    [AgentFinishAction], [AgentDelegateAction] in conversation_memory.py;
    the others in the unit tests).  An [inputs] dict maps names to
    strings. *)
Inductive Action :=
| MessageAction (content : string) (images_urls : option (list string))
| AgentFinishAction
| AgentDelegateAction (agent : string) (inputs : gmap string string)
| ChangeAgentStateAction (agent_state : string)
| NullAction
| FileReadAction (path : string) (start end_ : Z)
| FileWriteAction (path content : string).

Inductive Observation :=
| AgentDelegateObservation (outputs : gmap string string) (content : string)
| AgentStateChangedObservation (agent_state content : string)
| NullObservation (content : string)
| FileReadObservation (path content : string)
| FileWriteObservation (path content : string).

(** An event is an [Action] or an [Observation]: [isinstance(e, Action)]
    is [is_action], [isinstance(e, Observation)] is [is_observation]. *)
Inductive Payload :=
| Act (a : Action)
| Obs (o : Observation).

(** The [timestamp] and [extras] of an event are read by no function
    below and are left out. *)
Record Event := {
  id : Z;
  source : EventSource;
  payload : Payload
}.

Definition is_action (ev : Event) : bool :=
  match payload ev with Act _ => true | Obs _ => false end.

Definition is_observation (ev : Event) : bool :=
  match payload ev with Act _ => false | Obs _ => true end.

Definition is_delegate_action (ev : Event) : bool :=
  match payload ev with Act (AgentDelegateAction _ _) => true | _ => false end.

Definition is_delegate_observation (ev : Event) : bool :=
  match payload ev with Obs (AgentDelegateObservation _ _) => true | _ => false end.

Definition is_user_message (ev : Event) : bool :=
  match payload ev, source ev with
  | Act (MessageAction _ _), USER => true
  | _, _ => false
  end.

Definition is_agent_message (ev : Event) : bool :=
  match payload ev, source ev with
  | Act (MessageAction _ _), AGENT => true
  | _, _ => false
  end.

(** [event.content] of a message; only called on [MessageAction]s. *)
Definition message_content (ev : Event) : string :=
  match payload ev with
  | Act (MessageAction content _) => content
  | _ => ""
  end.

(** Modelled from the spec: the variant name of an event, the
    discriminant that [filter_out_kinds] is a set of.  The event classes
    are not part of the sources at hand; the names are the class names. *)
Definition variant_name (ev : Event) : string :=
  match payload ev with
  | Act (MessageAction _ _) => "MessageAction"
  | Act AgentFinishAction => "AgentFinishAction"
  | Act (AgentDelegateAction _ _) => "AgentDelegateAction"
  | Act (ChangeAgentStateAction _) => "ChangeAgentStateAction"
  | Act NullAction => "NullAction"
  | Act (FileReadAction _ _ _) => "FileReadAction"
  | Act (FileWriteAction _ _) => "FileWriteAction"
  | Obs (AgentDelegateObservation _ _) => "AgentDelegateObservation"
  | Obs (AgentStateChangedObservation _ _) => "AgentStateChangedObservation"
  | Obs (NullObservation _) => "NullObservation"
  | Obs (FileReadObservation _ _) => "FileReadObservation"
  | Obs (FileWriteObservation _ _) => "FileWriteObservation"
  end.

(** ** The event stream *)

(** The callbacks a subscriber can register. *)
Inductive Callback :=
| MemoryOnEvent
| OtherCallback (n : nat).

(** Modelled from the spec: the Event Log ([openhands/events/stream.py],
    not part of the sources at hand).  It owns the in-memory sequence,
    the persisted records (one per id under the stream's key prefix), the
    next-id counter and the ordered subscriber registry. *)
Record EventStream := {
  sid : string;
  file_store : gmap Z Event;
  events : list Event;
  cur_id : Z;
  subscribers : list (string * Callback)
}.

(** The table of delegate ranges: [dict[tuple[int, int], tuple[str, str]]]. *)
Abbreviation RangeTable := (gmap (Z * Z) (string * string)).

Module Stream.

(** Modelled from the spec: [latest_id()] returns the highest assigned
    id, or a sentinel for an empty stream.  The sentinel is [-1], the
    value one below the first id; the sources use the same [-1] for an
    absent id ([end_id != -1], [delegate_start = -1]). *)
Definition get_latest_event_id (es : EventStream) : Z := cur_id es - 1.

(** Modelled from the spec: [subscribe] registers a callback under a
    name; registering a name again replaces its callback in place,
    a new name goes to the end ([append]) or to the front. *)
Definition subscribe (es : EventStream) (name : string) (cb : Callback)
    (append : bool) : EventStream :=
  let subs := subscribers es in
  let subs' :=
    if existsb (fun s => String.eqb (fst s) name) subs
    then map (fun s => if String.eqb (fst s) name then (name, cb) else s) subs
    else if append then subs ++ [(name, cb)] else (name, cb) :: subs in
  {| sid := sid es; file_store := file_store es; events := events es;
     cur_id := cur_id es; subscribers := subs' |}.

(** Modelled from the spec: [append] assigns the next id, persists the
    record, appends it to the in-memory sequence and advances the
    counter.  The notification of the subscribers is the separate
    delivery step of [reachable] below: callbacks are asynchronous. *)
Definition add_event (es : EventStream) (p : Payload) (src : EventSource)
    : EventStream * Event :=
  let ev := {| id := cur_id es; source := src; payload := p |} in
  ({| sid := sid es;
      file_store := <[cur_id es := ev]> (file_store es);
      events := events es ++ [ev];
      cur_id := cur_id es + 1;
      subscribers := subscribers es |}, ev).

(** Modelled from the spec: the default [filter_out_kinds], the no-op
    and the agent-state bookkeeping variants. *)
Definition DEFAULT_HIDDEN : list string :=
  ["NullAction"; "NullObservation"; "ChangeAgentStateAction";
   "AgentStateChangedObservation"].

Definition kind_hidden (filter_out_kinds : list string) (ev : Event) : bool :=
  existsb (String.eqb (variant_name ev)) filter_out_kinds.

(** The id lies strictly between the ends of some recorded range. *)
Definition strictly_inside (ranges : RangeTable) (i : Z) : bool :=
  existsb (fun r => (fst (fst r) <? i) && (i <? snd (fst r)))
          (map_to_list ranges).

(** An absent bound is the stream's minimum or maximum: no bound. *)
Definition in_bounds (start_id end_id : option Z) (i : Z) : bool :=
  match start_id with Some s => s <=? i | None => true end &&
  match end_id with Some e => i <=? e | None => true end.

(** Modelled from the spec: the decision per candidate, in the order
    the traversal takes it: outside the bounds, hidden kind, interior
    to a known range unless delegates are included; otherwise emit. *)
Definition emits (ranges : RangeTable) (start_id end_id : option Z)
    (include_delegates : bool) (filter_out_kinds : list string)
    (ev : Event) : bool :=
  if negb (in_bounds start_id end_id (id ev)) then false
  else if kind_hidden filter_out_kinds ev then false
  else if negb include_delegates && strictly_inside ranges (id ev) then false
  else true.

(** Ascending traversal: walk the sequence from its first event. *)
Fixpoint ascending (keep : Event -> bool) (evs : list Event) : list Event :=
  match evs with
  | [] => []
  | ev :: rest =>
      if keep ev then ev :: ascending keep rest else ascending keep rest
  end.

(** Descending traversal: walk the positions from the last one down. *)
Fixpoint descending (keep : Event -> bool) (evs : list Event) (n : nat)
    : list Event :=
  match n with
  | O => []
  | S k =>
      match evs !! k with
      | Some ev =>
          if keep ev then ev :: descending keep evs k
          else descending keep evs k
      | None => descending keep evs k
      end
  end.

(** Modelled from the spec: the traversal
    [events(start_id?, end_id?, reverse, include_delegates, filter_out_kinds)]
    of the Event Log, which consults the tracker's range table. *)
Definition get_events (es : EventStream) (ranges : RangeTable)
    (start_id end_id : option Z) (reverse include_delegates : bool)
    (filter_out_kinds : list string) : list Event :=
  let keep := emits ranges start_id end_id include_delegates filter_out_kinds in
  if reverse then descending keep (events es) (length (events es))
  else ascending keep (events es).

End Stream.

(** ** The conversation memory *)

(** What [on_event] hands to the logger; the formatted numbers and names
    of the f-strings are kept as fields. *)
Inductive LogRecord :=
| DebugObservationReceived
| ErrorNoDelegateAction (delegate_end : Z)
| DebugDelegateRan (delegate_agent delegate_task : string)
                   (delegate_start delegate_end : Z).

(** The attributes of a [ConversationMemory] that it owns. *)
Record ConversationMemory := {
  delegates : RangeTable;
  start_id : Z
}.

(** The objects in play: the event stream that [self._event_stream]
    refers to (shared with the producers that append to it), the memory
    object itself, and what has been logged so far. *)
Record World := {
  _event_stream : EventStream;
  self : ConversationMemory;
  logged : list LogRecord
}.

(** What [get_current_user_intent] returns: the loop's early [return]
    gives the message alone, the final [return] gives a tuple. *)
Inductive Intent :=
| ReturnText (last_user_message : string)
| ReturnPair (last_user_message : option string)
             (last_user_message_image_urls : option (list string)).

Module Memory.

(** [ConversationMemory.__init__]. *)
Definition init (es : EventStream) (logged0 : list LogRecord) : World :=
  let es' := Stream.subscribe es "MEMORY" MemoryOnEvent true in
  {| _event_stream := es';
     self := {| delegates := ∅;
                start_id := Stream.get_latest_event_id es' |};
     logged := logged0 |}.

(** [self._event_stream.get_events(...)] with the stream's default
    [filter_out_kinds]; the traversal consults this memory's table. *)
Definition stream_events (w : World) (start_id end_id : option Z)
    (reverse include_delegates : bool) : list Event :=
  Stream.get_events (_event_stream w) (delegates (self w))
    start_id end_id reverse include_delegates Stream.DEFAULT_HIDDEN.

Definition get_events (w : World) (reverse include_delegates : bool)
    : list Event :=
  stream_events w None None reverse include_delegates.

Definition get_last_events (w : World) (n : Z) : list Event :=
  let end_id := Stream.get_latest_event_id (_event_stream w) in
  let start_id' := Z.max (start_id (self w)) (end_id - n + 1) in
  stream_events w (Some start_id') (Some end_id) false false.

(** The [for prev_event in ...] loop of [on_event] with its [break]:
    the triple [(delegate_start, delegate_agent, delegate_task)]. *)
Fixpoint scan_for_delegate_action (prev_events : list Event)
    (found : Z * string * string) : Z * string * string :=
  match prev_events with
  | [] => found
  | prev_event :: rest =>
      match payload prev_event with
      | Act (AgentDelegateAction agent inputs) =>
          (id prev_event, agent, default "" (inputs !! "task"))
      | _ => scan_for_delegate_action rest found
      end
  end.

Definition on_event (w : World) (event : Event) : World :=
  if negb (is_delegate_observation event) then w
  else
    let logged1 := logged w ++ [DebugObservationReceived] in
    let delegate_end := id event in
    let '(delegate_start, delegate_agent, delegate_task) :=
      scan_for_delegate_action
        (stream_events w None (Some (id event - 1)) true false)
        (-1, "", "") in
    if delegate_start =? -1 then
      {| _event_stream := _event_stream w;
         self := self w;
         logged := logged1 ++ [ErrorNoDelegateAction delegate_end] |}
    else
      {| _event_stream := _event_stream w;
         self := {| delegates :=
                      <[(delegate_start, delegate_end) :=
                          (delegate_agent, delegate_task)]>
                        (delegates (self w));
                    start_id := start_id (self w) |};
         logged := logged1 ++ [DebugDelegateRan delegate_agent delegate_task
                                 delegate_start delegate_end] |}.

Definition reset (w : World) : World :=
  {| _event_stream := _event_stream w;
     self := {| delegates := ∅;
                start_id := Stream.get_latest_event_id (_event_stream w) |};
     logged := logged w |}.

(** The loop of [get_current_user_intent] over the reverse traversal. *)
Fixpoint current_user_intent_loop (evs : list Event)
    (last_user_message : option string)
    (last_user_message_image_urls : option (list string)) : Intent :=
  match evs with
  | [] => ReturnPair last_user_message last_user_message_image_urls
  | event :: rest =>
      match payload event, source event with
      | Act (MessageAction content images_urls), USER =>
          current_user_intent_loop rest (Some content) images_urls
      | Act AgentFinishAction, _ =>
          match last_user_message with
          | Some m => ReturnText m
          | None =>
              current_user_intent_loop rest last_user_message
                last_user_message_image_urls
          end
      | _, _ =>
          current_user_intent_loop rest last_user_message
            last_user_message_image_urls
      end
  end.

Definition get_current_user_intent (w : World) : Intent :=
  current_user_intent_loop (stream_events w None None true false)
    None (Some []).

(** [end_id if end_id != -1 else latest - 1]. *)
Definition default_end_id (w : World) (end_id : Z) : Z :=
  if end_id =? -1
  then Stream.get_latest_event_id (_event_stream w) - 1
  else end_id.

Definition get_last_action (w : World) (end_id : Z) : option Event :=
  List.find is_action
    (stream_events w (Some (start_id (self w)))
       (Some (default_end_id w end_id)) true false).

Definition get_last_observation (w : World) (end_id : Z) : option Event :=
  List.find is_observation
    (stream_events w (Some (start_id (self w)))
       (Some (default_end_id w end_id)) true false).

Definition get_last_user_message (w : World) : string :=
  match List.find is_user_message
          (stream_events w (Some (start_id (self w))) None true false) with
  | Some event => message_content event
  | None => ""
  end.

Definition get_last_agent_message (w : World) : string :=
  match List.find is_agent_message
          (stream_events w (Some (start_id (self w))) None true false) with
  | Some event => message_content event
  | None => ""
  end.

End Memory.

(** ** Running the system *)

(** A producer appends an event to the stream the memory refers to. *)
Definition append (w : World) (p : Payload) (src : EventSource) : World :=
  {| _event_stream := fst (Stream.add_event (_event_stream w) p src);
     self := self w;
     logged := logged w |}.

(** The ids of a stream are 0, 1, 2, ... in order and the counter is the
    next one. *)
Definition wf_stream (es : EventStream) : Prop :=
  map id (events es) = seqZ 0 (cur_id es) /\ 0 <= cur_id es.

(** The states the system reaches: a memory is created on a stream;
    producers append; the stream delivers stored events to the memory's
    callback (in any order, callbacks being asynchronous); the memory is
    reset. *)
Inductive reachable : World -> Prop :=
| reach_init es logged0 :
    wf_stream es -> reachable (Memory.init es logged0)
| reach_append w p src :
    reachable w -> reachable (append w p src)
| reach_deliver w ev :
    reachable w -> In ev (events (_event_stream w)) ->
    reachable (Memory.on_event w ev)
| reach_reset w :
    reachable w -> reachable (Memory.reset w).

(** ** Invariants of the range table *)

(** Every recorded range ends at an id the stream has assigned, and no
    delegate action lies strictly inside a recorded range. *)
Definition ranges_hide_no_delegate_action (w : World) : Prop :=
  forall s e, is_Some (delegates (self w) !! (s, e)) ->
    e < cur_id (_event_stream w) /\
    forall ev, In ev (events (_event_stream w)) ->
      s < id ev < e -> is_delegate_action ev = false.

(** Every recorded range starts at a stored delegate action, below its
    end, and carries that action's agent and task. *)
Definition range_table_ok (w : World) : Prop :=
  forall s e agent task,
    delegates (self w) !! (s, e) = Some (agent, task) ->
    0 <= s < e /\
    exists src inputs,
      In {| id := s; source := src;
            payload := Act (AgentDelegateAction agent inputs) |}
         (events (_event_stream w))
      /\ task = default "" (inputs !! "task").

(** What the traversal of [on_event] lets through. *)
Definition visible_before (w : World) (delegate_end : Z) (ev : Event) : bool :=
  Stream.emits (delegates (self w)) None (Some (delegate_end - 1)) false
    Stream.DEFAULT_HIDDEN ev.

(** The same world with another start offset, and with another
    in-memory sequence. *)
Definition with_start_id (w : World) (offset : Z) : World :=
  {| _event_stream := _event_stream w;
     self := {| delegates := delegates (self w); start_id := offset |};
     logged := logged w |}.

Definition with_events (w : World) (evs : list Event) : World :=
  {| _event_stream :=
       {| sid := sid (_event_stream w);
          file_store := file_store (_event_stream w);
          events := evs;
          cur_id := cur_id (_event_stream w);
          subscribers := subscribers (_event_stream w) |};
     self := self w;
     logged := logged w |}.

(** ** Concrete runs *)

Module Examples.

Definition empty_stream : EventStream :=
  {| sid := "abc"; file_store := ∅; events := []; cur_id := 0;
     subscribers := [] |}.

(** A memory created on a fresh stream. *)
Definition fresh : World := Memory.init empty_stream [].

(** Append an event and deliver it to the memory's callback. *)
Definition publish (src : EventSource) (w : World) (p : Payload) : World :=
  Memory.on_event (append w p src)
    (snd (Stream.add_event (_event_stream w) p src)).

Definition delegate_action : Payload :=
  Act (AgentDelegateAction "delegate_agent" {["task" := "delegate_task"]}).

Definition delegate_observation : Payload :=
  Obs (AgentDelegateObservation ∅ "Delegate completed").

Definition read_action : Payload := Act (FileReadAction "read.txt" 0 5).

Definition user_message (content : string) : Payload :=
  Act (MessageAction content None).

(** The stream of [test_delegate_exclusion_forward_with_file_actions]
    before its closing observation: ids 0 to 4. *)
Definition before_completion : World :=
  fold_left (publish AGENT)
    [read_action; Obs (FileReadObservation "read.txt" "Initial Read");
     delegate_action; Act (FileWriteAction "write.txt" "Delegate Content");
     Obs (FileWriteObservation "write.txt" "Delegate Content")] fresh.

(** The closing observation, id 5, appended but not yet delivered. *)
Definition completion_appended : World :=
  append before_completion delegate_observation AGENT.

Definition completion : Event :=
  {| id := 5; source := AGENT; payload := delegate_observation |}.

(** ... and delivered, followed by one more read: ids 0 to 6. *)
Definition after_completion : World :=
  publish AGENT (Memory.on_event completion_appended completion) read_action.

(** One delegation, two completion observations: ids 0, 1, 2. *)
Definition two_completions : World :=
  fold_left (publish AGENT)
    [delegate_action; delegate_observation; delegate_observation] fresh.

(** A delegation starts, the memory is reset, the delegation ends. *)
Definition reset_inside_delegation : World :=
  append
    (Memory.reset
       (fold_left (publish AGENT) [delegate_action; read_action] fresh))
    delegate_observation AGENT.

Definition late_completion : Event :=
  {| id := 2; source := AGENT; payload := delegate_observation |}.

(** A task, a finish, then two more user messages. *)
Definition two_tasks : World :=
  fold_left (publish USER)
    [user_message "first task"; Act AgentFinishAction;
     user_message "second task"; user_message "please hurry"] fresh.

(** A user message, an action, then a reset. *)
Definition reset_after_task : World :=
  Memory.reset
    (publish AGENT (publish USER fresh (user_message "old task")) read_action).

(** Three events, the last of a default-hidden kind. *)
Definition hidden_last : World :=
  fold_left (publish AGENT) [read_action; read_action; Act NullAction] fresh.

End Examples.

(** What an offset-bounded default traversal can show: a stored event at
    or above the start offset, of no default-hidden kind, not strictly
    inside a recorded range. *)
Definition offset_visible (w : World) (ev : Event) : Prop :=
  In ev (events (_event_stream w))
  /\ start_id (self w) <= id ev
  /\ Stream.kind_hidden Stream.DEFAULT_HIDDEN ev = false
  /\ Stream.strictly_inside (delegates (self w)) (id ev) = false.

(** [event.images_urls] of a message. *)
Definition message_images_urls (ev : Event) : option (list string) :=
  match payload ev with
  | Act (MessageAction _ images_urls) => images_urls
  | _ => None
  end.

Definition is_finish (ev : Event) : bool :=
  match payload ev with Act AgentFinishAction => true | _ => false end.

(** [wf_stream] of a concrete stream, by evaluation. *)
Ltac wf_by_computation :=
  split; [vm_compute; reflexivity | vm_compute; discriminate].

(** ** The planner agent's history *)

(** [PlannerAgent._get_history_str] of [agenthub/planner_agent/agent.py].
    [HISTORY_SIZE] (from the prompt module), [event_to_memory], the
    configured [max_message_chars] and [json.dumps] are not defined in
    the sources read here and are taken as parameters. *)
Section PlannerAgent.

Variable HISTORY_SIZE : Z.
Variable Dict : Type.
Variable event_to_memory : Event -> Z -> Dict.
Variable max_message_chars : Z.
Variable json_dumps : list Dict -> string.

(** The [for event_count, event in enumerate(...)] loop with its
    [break], appending to [history_dicts]. *)
Fixpoint history_loop (evs : list Event) (event_count : Z)
    (history_dicts : list Dict) : list Dict :=
  match evs with
  | [] => history_dicts
  | event :: rest =>
      if HISTORY_SIZE <=? event_count then history_dicts
      else history_loop rest (event_count + 1)
             (history_dicts ++ [event_to_memory event max_message_chars])
  end.

Definition _get_history_str (w : World) : string :=
  let history_dicts := history_loop (Memory.get_events w true false) 0 [] in
  json_dumps (rev history_dicts).

End PlannerAgent.

(** ** Runtime classes *)

(** The classes [get_runtime_cls] of [openhands/runtime/__init__.py]
    imports and returns. *)
Inductive RuntimeCls := EventStreamRuntime | E2BRuntime | RemoteRuntime.

Inductive Exception := ValueError (message : string).

Definition get_runtime_cls (name : string) : RuntimeCls + Exception :=
  if String.eqb name "eventstream" then inl EventStreamRuntime
  else if String.eqb name "e2b" then inl E2BRuntime
  else if String.eqb name "remote" then inl RemoteRuntime
  else inr (ValueError ("Runtime " ++ name ++ " not supported")).

(** ** Auxiliary notions *)

(** The range [on_event] writes when no delegate action is hidden: the
    scan runs over every stored event with id below the event's. *)
Definition record_range (evs : list Event) (event : Event)
    (ranges : RangeTable) : RangeTable :=
  if negb (is_delegate_observation event) then ranges
  else
    let '(delegate_start, delegate_agent, delegate_task) :=
      Memory.scan_for_delegate_action
        (rev (Stream.ascending (fun ev => id ev <=? id event - 1) evs))
        (-1, "", "") in
    if delegate_start =? -1 then ranges
    else <[(delegate_start, id event) := (delegate_agent, delegate_task)]>
           ranges.

(** ** More concrete runs *)

Module Scenarios.

(** A user message answered by the agent, then a read. *)
Definition agent_reply : World :=
  Examples.publish AGENT
    (Examples.publish AGENT
       (Examples.publish USER Examples.fresh (Examples.user_message "task"))
       (Examples.user_message "on it"))
    Examples.read_action.

(** A delegation and two completion observations, appended and not yet
    delivered: ids 0, 1, 2. *)
Definition two_pending : World :=
  append
    (append (Examples.publish AGENT Examples.fresh Examples.delegate_action)
       Examples.delegate_observation AGENT)
    Examples.delegate_observation AGENT.

Definition first_completion : Event :=
  {| id := 1; source := AGENT; payload := Examples.delegate_observation |}.

Definition second_completion : Event :=
  {| id := 2; source := AGENT; payload := Examples.delegate_observation |}.

End Scenarios.

(** Every recorded range ends at the id of a stored delegate
    observation. *)
Definition ranges_end_at_observation (w : World) : Prop :=
  forall s e, is_Some (delegates (self w) !! (s, e)) ->
    exists o, In o (events (_event_stream w)) /\ id o = e
              /\ is_delegate_observation o = true.

(** ** Traversal lemmas *)

Section Traversal.

Variable keep : Event -> bool.

Lemma ascending_app (l1 l2 : list Event) :
  Stream.ascending keep (l1 ++ l2)
  = Stream.ascending keep l1 ++ Stream.ascending keep l2.
Proof.
  induction l1 as [|ev l1 IH]; simpl; [reflexivity|].
  destruct (keep ev); simpl; now rewrite IH.
Qed.

Lemma in_ascending (l : list Event) (ev : Event) :
  In ev (Stream.ascending keep l) <-> In ev l /\ keep ev = true.
Proof.
  induction l as [|x l IH]; simpl; [tauto|].
  destruct (keep x) eqn:Hk; simpl; rewrite IH; intuition (subst; congruence).
Qed.

Lemma descending_prefix (l1 l2 : list Event) (n : nat) :
  (n <= length l1)%nat ->
  Stream.descending keep (l1 ++ l2) n = Stream.descending keep l1 n.
Proof.
  induction n as [|k IH]; intros Hn; simpl; [reflexivity|].
  rewrite lookup_app_l by lia.
  rewrite IH by lia. reflexivity.
Qed.

Lemma descending_rev (l : list Event) :
  Stream.descending keep l (length l) = rev (Stream.ascending keep l).
Proof.
  induction l as [|x l IH] using rev_ind; [reflexivity|].
  rewrite length_app, Nat.add_comm. simpl.
  rewrite list_lookup_middle by reflexivity.
  rewrite descending_prefix by lia.
  rewrite ascending_app, rev_app_distr, IH. simpl.
  destruct (keep x); reflexivity.
Qed.

End Traversal.

Lemma in_get_events es ranges s e r inc f ev :
  In ev (Stream.get_events es ranges s e r inc f)
  <-> In ev (events es) /\ Stream.emits ranges s e inc f ev = true.
Proof.
  unfold Stream.get_events. destruct r.
  - rewrite descending_rev, <- in_rev. apply in_ascending.
  - apply in_ascending.
Qed.

Lemma strictly_inside_true (ranges : RangeTable) (i : Z) :
  Stream.strictly_inside ranges i = true
  <-> exists s e, is_Some (ranges !! (s, e)) /\ s < i < e.
Proof.
  unfold Stream.strictly_inside. rewrite existsb_exists. split.
  - intros [[[s e] v] [Hin Hb]]. simpl in Hb.
    apply list_elem_of_In, elem_of_map_to_list in Hin.
    exists s, e. split; [eauto|lia].
  - intros (s & e & [v Hv] & Hlt). exists ((s, e), v). split.
    + apply list_elem_of_In, elem_of_map_to_list, Hv.
    + simpl. lia.
Qed.

Lemma strictly_inside_false (ranges : RangeTable) (i : Z) :
  Stream.strictly_inside ranges i = false
  <-> forall s e, is_Some (ranges !! (s, e)) -> ~ (s < i < e).
Proof.
  rewrite <- not_true_iff_false, strictly_inside_true. split.
  - intros H s e Hs Hlt. apply H. eauto.
  - intros H (s & e & Hs & Hlt). exact (H s e Hs Hlt).
Qed.

Lemma in_bounds_true s e i :
  Stream.in_bounds s e i = true
  <-> (forall lo, s = Some lo -> lo <= i) /\ (forall hi, e = Some hi -> i <= hi).
Proof.
  unfold Stream.in_bounds. rewrite andb_true_iff.
  destruct s as [lo|], e as [hi|]; rewrite ?Z.leb_le;
    (split; [intros [H1 H2]; split; intros b Hb; inversion Hb; subst; lia
            |intros [H1 H2]; split; auto]).
Qed.

(** The decision [emits] as a conjunction. *)
Lemma emits_true ranges s e inc f ev :
  Stream.emits ranges s e inc f ev = true
  <-> Stream.in_bounds s e (id ev) = true
      /\ Stream.kind_hidden f ev = false
      /\ (inc = true \/ Stream.strictly_inside ranges (id ev) = false).
Proof.
  unfold Stream.emits.
  destruct (Stream.in_bounds s e (id ev)), (Stream.kind_hidden f ev), inc,
    (Stream.strictly_inside ranges (id ev)); simpl; intuition congruence.
Qed.

Lemma get_events_forward_of_reverse es ranges s e inc f :
  rev (Stream.get_events es ranges s e true inc f)
  = Stream.get_events es ranges s e false inc f.
Proof.
  unfold Stream.get_events. rewrite descending_rev. apply rev_involutive.
Qed.

(** ** Well-formed streams *)

Lemma seqZ_strongly_sorted (m n : Z) : StronglySorted Z.lt (seqZ m n).
Proof.
  remember (Z.to_nat n) as k eqn:Hk. revert m n Hk.
  induction k as [|k IH]; intros m n Hk.
  - rewrite seqZ_nil by lia. constructor.
  - rewrite seqZ_cons by lia. constructor.
    + apply IH. lia.
    + apply Forall_seqZ. intros m' Hm'. lia.
Qed.

Lemma wf_ids_sorted es :
  wf_stream es -> StronglySorted Z.lt (map id (events es)).
Proof. intros [Hids _]. rewrite Hids. apply seqZ_strongly_sorted. Qed.

Lemma wf_id_range es ev :
  wf_stream es -> In ev (events es) -> 0 <= id ev < cur_id es.
Proof.
  intros [Hids _] Hin.
  assert (Hm : id ev ∈ seqZ 0 (cur_id es)).
  { rewrite <- Hids. apply list_elem_of_In, in_map, Hin. }
  apply elem_of_seqZ in Hm. lia.
Qed.

(** In a well-formed stream, what follows an event has a larger id and
    what precedes it a smaller one. *)
Lemma wf_split es l1 ev l2 :
  wf_stream es -> events es = l1 ++ ev :: l2 ->
  (forall x, In x l1 -> id x < id ev) /\ (forall x, In x l2 -> id ev < id x).
Proof.
  intros Hwf Hev. pose proof (wf_ids_sorted es Hwf) as Hs.
  rewrite Hev, map_app in Hs. simpl in Hs. split; intros x Hx.
  - apply (StronglySorted_app_1_elem_of Z.lt _ _ (id x) (id ev)) in Hs; [exact Hs| |].
    + apply list_elem_of_In, in_map, Hx.
    + left.
  - apply StronglySorted_app_1_r in Hs. inversion Hs as [|? ? _ Hall]; subst.
    rewrite Forall_forall in Hall. apply Hall, list_elem_of_In, in_map, Hx.
Qed.

(** Two events of a well-formed stream with the same id are the same. *)
Lemma wf_id_inj es x y :
  wf_stream es -> In x (events es) -> In y (events es) -> id x = id y -> x = y.
Proof.
  intros Hwf Hx Hy Hid.
  destruct (in_split _ _ Hx) as (l1 & l2 & Hsplit).
  destruct (wf_split es l1 x l2 Hwf Hsplit) as [Hlt Hgt].
  rewrite Hsplit in Hy. apply in_app_iff in Hy.
  destruct Hy as [Hy|[Hy|Hy]]; [|congruence|].
  - specialize (Hlt y Hy). lia.
  - specialize (Hgt y Hy). lia.
Qed.

Lemma wf_subscribe es name cb app :
  wf_stream es -> wf_stream (Stream.subscribe es name cb app).
Proof. intros H. exact H. Qed.

Lemma wf_add_event es p src :
  wf_stream es -> wf_stream (fst (Stream.add_event es p src)).
Proof.
  intros [Hids Hc]. unfold wf_stream. simpl. split; [|lia].
  rewrite map_app, Hids. simpl.
  replace (cur_id es + 1) with (Z.of_nat (S (Z.to_nat (cur_id es)))) by lia.
  rewrite seqZ_S. rewrite Z2Nat.id by lia. reflexivity.
Qed.

(** A strictly ascending list of integers within [lo, hi] has at most
    [hi - lo + 1] elements. *)
Lemma sorted_in_range_length (l : list Z) (lo hi : Z) :
  StronglySorted Z.lt l -> Forall (fun i => lo <= i <= hi) l ->
  Z.of_nat (length l) <= Z.max 0 (hi - lo + 1).
Proof.
  intros Hs. revert lo. induction Hs as [|x l Hs IH Hx]; intros lo Hr.
  - simpl. lia.
  - inversion Hr as [|? ? Hxr Hlr]; subst.
    assert (Hl : Forall (fun i => x + 1 <= i <= hi) l).
    { rewrite Forall_forall in *. intros i Hi.
      specialize (Hx i Hi). specialize (Hlr i Hi). lia. }
    specialize (IH (x + 1) Hl). simpl length. lia.
Qed.

Lemma ascending_ids_sorted keep (l : list Event) :
  StronglySorted Z.lt (map id l) ->
  StronglySorted Z.lt (map id (Stream.ascending keep l)).
Proof.
  induction l as [|x l IH]; simpl; intros Hs; [constructor|].
  inversion Hs as [|? ? Hs' Hall]; subst.
  destruct (keep x); simpl; [|auto].
  constructor; [auto|].
  rewrite Forall_forall in *. intros i Hi.
  apply list_elem_of_In, in_map_iff in Hi. destruct Hi as (y & <- & Hy).
  apply in_ascending in Hy. apply Hall, list_elem_of_In, in_map, Hy.
Qed.

(** ** The scan of [on_event] *)

Lemma delegate_action_payload ev :
  is_delegate_action ev = true <->
  exists agent inputs, payload ev = Act (AgentDelegateAction agent inputs).
Proof.
  unfold is_delegate_action. split.
  - destruct (payload ev) as [[]|]; try discriminate. eauto.
  - intros (agent & inputs & ->). reflexivity.
Qed.

Lemma scan_no_delegate_action (l : list Event) found :
  (forall x, In x l -> is_delegate_action x = false) ->
  Memory.scan_for_delegate_action l found = found.
Proof.
  induction l as [|x l IH]; intros Hno; simpl; [reflexivity|].
  assert (Hx : is_delegate_action x = false) by (apply Hno; now left).
  unfold is_delegate_action in Hx.
  destruct (payload x) as [[]|]; try discriminate;
    apply IH; intros y Hy; apply Hno; now right.
Qed.

Lemma scan_first_delegate_action (l1 l2 : list Event) prev agent inputs found :
  (forall x, In x l1 -> is_delegate_action x = false) ->
  payload prev = Act (AgentDelegateAction agent inputs) ->
  Memory.scan_for_delegate_action (l1 ++ prev :: l2) found
  = (id prev, agent, default "" (inputs !! "task")).
Proof.
  induction l1 as [|x l1 IH]; intros Hno Hp; simpl.
  - rewrite Hp. reflexivity.
  - assert (Hx : is_delegate_action x = false) by (apply Hno; now left).
    unfold is_delegate_action in Hx.
    destruct (payload x) as [[]|]; try discriminate;
      apply IH; auto; intros y Hy; apply Hno; now right.
Qed.

Lemma scan_cases (l : list Event) found :
  (Memory.scan_for_delegate_action l found = found
   /\ forall x, In x l -> is_delegate_action x = false)
  \/ exists l1 prev l2 agent inputs,
       l = l1 ++ prev :: l2
       /\ (forall x, In x l1 -> is_delegate_action x = false)
       /\ payload prev = Act (AgentDelegateAction agent inputs)
       /\ Memory.scan_for_delegate_action l found
          = (id prev, agent, default "" (inputs !! "task")).
Proof.
  induction l as [|x l IH].
  - left. split; [reflexivity|]. intros x [].
  - destruct (is_delegate_action x) eqn:Hx.
    + right. apply delegate_action_payload in Hx.
      destruct Hx as (agent & inputs & Hp).
      exists [], x, l, agent, inputs. split; [reflexivity|].
      split; [intros y []|]. split; [exact Hp|].
      apply (scan_first_delegate_action [] l x agent inputs found); auto.
      intros y [].
    + assert (Hstep : forall f, Memory.scan_for_delegate_action (x :: l) f
                                = Memory.scan_for_delegate_action l f).
      { intros f. simpl. unfold is_delegate_action in Hx.
        destruct (payload x) as [[]|]; try discriminate; reflexivity. }
      destruct IH as [[Hs Hno]|(l1 & prev & l2 & agent & inputs & Hl & Hno & Hp & Hs)].
      * left. rewrite Hstep. split; [exact Hs|].
        intros y [<-|Hy]; auto.
      * subst l. right. exists (x :: l1), prev, l2, agent, inputs.
        rewrite Hstep. split; [reflexivity|].
        split; [intros y [<-|Hy]; auto|]. split; assumption.
Qed.

Lemma delegate_action_not_hidden ev :
  is_delegate_action ev = true ->
  Stream.kind_hidden Stream.DEFAULT_HIDDEN ev = false.
Proof.
  intros H. apply delegate_action_payload in H.
  destruct H as (agent & inputs & Hp).
  unfold Stream.kind_hidden, variant_name. rewrite Hp. reflexivity.
Qed.

(** Under the invariant, the traversal of [on_event] shows every
    delegate action below the end id. *)
Lemma delegate_action_visible w delegate_end ev :
  ranges_hide_no_delegate_action w ->
  In ev (events (_event_stream w)) ->
  id ev <= delegate_end - 1 ->
  is_delegate_action ev = true ->
  visible_before w delegate_end ev = true.
Proof.
  intros Hinv Hin Hle Hda. unfold visible_before.
  apply emits_true. split; [|split].
  - unfold Stream.in_bounds. simpl. apply Z.leb_le. exact Hle.
  - apply delegate_action_not_hidden, Hda.
  - right. apply strictly_inside_false. intros s e Hs Hlt.
    destruct (Hinv s e Hs) as [_ Hno].
    rewrite (Hno ev Hin Hlt) in Hda. discriminate.
Qed.

Lemma visible_before_bound w delegate_end ev :
  visible_before w delegate_end ev = true -> id ev <= delegate_end - 1.
Proof.
  unfold visible_before. rewrite emits_true, in_bounds_true.
  intros [[_ Hhi] _]. apply Hhi. reflexivity.
Qed.

Lemma on_event_traversal w delegate_end :
  Memory.stream_events w None (Some (delegate_end - 1)) true false
  = rev (Stream.ascending (visible_before w delegate_end)
           (events (_event_stream w))).
Proof.
  unfold Memory.stream_events, Stream.get_events. apply descending_rev.
Qed.

(** ** [on_event] *)

Lemma on_event_ignores w event :
  is_delegate_observation event = false -> Memory.on_event w event = w.
Proof. intros H. unfold Memory.on_event. rewrite H. reflexivity. Qed.

Lemma on_event_scan w event delegate_start delegate_agent delegate_task :
  is_delegate_observation event = true ->
  Memory.scan_for_delegate_action
    (Memory.stream_events w None (Some (id event - 1)) true false)
    (-1, "", "") = (delegate_start, delegate_agent, delegate_task) ->
  Memory.on_event w event =
  if delegate_start =? -1 then
    {| _event_stream := _event_stream w;
       self := self w;
       logged := (logged w ++ [DebugObservationReceived])
                 ++ [ErrorNoDelegateAction (id event)] |}
  else
    {| _event_stream := _event_stream w;
       self := {| delegates :=
                    <[(delegate_start, id event) :=
                        (delegate_agent, delegate_task)]> (delegates (self w));
                  start_id := start_id (self w) |};
       logged := (logged w ++ [DebugObservationReceived])
                 ++ [DebugDelegateRan delegate_agent delegate_task
                       delegate_start (id event)] |}.
Proof.
  intros Hobs Hs. unfold Memory.on_event. rewrite Hobs, Hs. reflexivity.
Qed.

(** [on_event] leaves the stream and the start offset alone. *)
Lemma on_event_frame w event :
  _event_stream (Memory.on_event w event) = _event_stream w
  /\ start_id (self (Memory.on_event w event)) = start_id (self w).
Proof.
  destruct (is_delegate_observation event) eqn:Hobs.
  - destruct (Memory.scan_for_delegate_action
                (Memory.stream_events w None (Some (id event - 1)) true false)
                (-1, "", "")) as [[ds da] dt] eqn:Hs.
    rewrite (on_event_scan w event ds da dt Hobs Hs).
    destruct (ds =? -1); split; reflexivity.
  - rewrite on_event_ignores by assumption. split; reflexivity.
Qed.

(** Either the table is unchanged, or one range is written: from the
    visible delegate action with the largest id below the event's. *)
Lemma on_event_table w event :
  wf_stream (_event_stream w) ->
  delegates (self (Memory.on_event w event)) = delegates (self w)
  \/ exists prev agent inputs,
       In prev (events (_event_stream w))
       /\ visible_before w (id event) prev = true
       /\ payload prev = Act (AgentDelegateAction agent inputs)
       /\ (forall x, In x (events (_event_stream w)) ->
             visible_before w (id event) x = true ->
             id prev < id x -> is_delegate_action x = false)
       /\ delegates (self (Memory.on_event w event))
          = <[(id prev, id event) := (agent, default "" (inputs !! "task"))]>
              (delegates (self w)).
Proof.
  intros Hwf.
  destruct (is_delegate_observation event) eqn:Hobs;
    [|left; now rewrite on_event_ignores].
  destruct (scan_cases
              (Memory.stream_events w None (Some (id event - 1)) true false)
              (-1, "", ""))
    as [[Hs _]|(l1 & prev & l2 & agent & inputs & Hl & Hno & Hp & Hs)].
  - left. rewrite (on_event_scan w event _ _ _ Hobs Hs). reflexivity.
  - rewrite (on_event_scan w event _ _ _ Hobs Hs).
    destruct (id prev =? -1) eqn:Hid; [left; reflexivity|].
    right. exists prev, agent, inputs.
    rewrite on_event_traversal in Hl.
    assert (Hasc : Stream.ascending (visible_before w (id event))
                     (events (_event_stream w))
                   = rev l2 ++ prev :: rev l1).
    { rewrite <- (rev_involutive (Stream.ascending _ _)), Hl.
      rewrite rev_app_distr. simpl. rewrite <- app_assoc. reflexivity. }
    assert (Hprev : In prev (events (_event_stream w))
                    /\ visible_before w (id event) prev = true).
    { apply in_ascending. rewrite Hasc. apply in_elt. }
    destruct Hprev as [Hin Hvis].
    split; [exact Hin|]. split; [exact Hvis|]. split; [exact Hp|].
    split; [|reflexivity].
    intros x Hx Hxvis Hlt.
    assert (Hxa : In x (rev l2 ++ prev :: rev l1)).
    { rewrite <- Hasc. apply in_ascending. now split. }
    apply in_app_iff in Hxa. destruct Hxa as [Hx2|[->|Hx1]].
    + exfalso.
      pose proof (ascending_ids_sorted (visible_before w (id event)) _
                    (wf_ids_sorted _ Hwf)) as Hsorted.
      rewrite Hasc, map_app in Hsorted. simpl in Hsorted.
      apply (StronglySorted_app_1_elem_of Z.lt _ _ (id x) (id prev)) in Hsorted.
      * lia.
      * apply list_elem_of_In, in_map, Hx2.
      * left.
    + lia.
    + apply Hno, in_rev, Hx1.
Qed.

(** ** The invariants hold in every reachable state *)

Lemma on_event_range_table_ok w event :
  wf_stream (_event_stream w) -> range_table_ok w ->
  range_table_ok (Memory.on_event w event).
Proof.
  intros Hwf Hok s e agent task Hl.
  destruct (on_event_frame w event) as [Hes _]. rewrite Hes.
  destruct (on_event_table w event Hwf)
    as [Heq|(prev & a & inputs & Hin & Hvis & Hp & _ & Heq)];
    rewrite Heq in Hl; [exact (Hok s e agent task Hl)|].
  destruct (decide ((id prev, id event) = (s, e))) as [Hk|Hk].
  - rewrite Hk, lookup_insert_eq in Hl.
    inversion Hk; subst s e. inversion Hl; subst agent task.
    apply visible_before_bound in Hvis.
    pose proof (wf_id_range _ _ Hwf Hin) as Hr.
    split; [lia|]. exists (source prev), inputs. split; [|reflexivity].
    destruct prev as [i src p]. simpl in *. subst p. exact Hin.
  - rewrite lookup_insert_ne in Hl by exact Hk. exact (Hok s e agent task Hl).
Qed.

Lemma reset_range_table_ok w : range_table_ok (Memory.reset w).
Proof. intros s e agent task Hl. simpl in Hl. rewrite lookup_empty in Hl. discriminate. Qed.

Lemma append_range_table_ok w p src :
  range_table_ok w -> range_table_ok (append w p src).
Proof.
  intros Hok s e agent task Hl. simpl in Hl.
  destruct (Hok s e agent task Hl) as (Hr & src' & inputs & Hin & Ht).
  split; [exact Hr|]. exists src', inputs. split; [|exact Ht].
  simpl. apply in_app_iff. now left.
Qed.

Lemma on_event_hides_no_delegate_action w event :
  wf_stream (_event_stream w) -> In event (events (_event_stream w)) ->
  ranges_hide_no_delegate_action w ->
  ranges_hide_no_delegate_action (Memory.on_event w event).
Proof.
  intros Hwf Hev Hinv s e Hs.
  destruct (on_event_frame w event) as [Hes _]. rewrite Hes.
  destruct (on_event_table w event Hwf)
    as [Heq|(prev & a & inputs & Hin & Hvis & Hp & Hnear & Heq)];
    rewrite Heq in Hs; [exact (Hinv s e Hs)|].
  apply lookup_insert_is_Some in Hs. destruct Hs as [Hk|[_ Hs]];
    [|exact (Hinv s e Hs)].
  inversion Hk; subst s e. split.
  - apply (wf_id_range _ _ Hwf Hev).
  - intros ev Hin' Hlt.
    destruct (is_delegate_action ev) eqn:Hda; [|reflexivity].
    rewrite <- Hda. apply Hnear; [exact Hin'| |lia].
    apply delegate_action_visible; auto. lia.
Qed.

Lemma append_hides_no_delegate_action w p src :
  wf_stream (_event_stream w) ->
  ranges_hide_no_delegate_action w ->
  ranges_hide_no_delegate_action (append w p src).
Proof.
  intros Hwf Hinv s e Hs. simpl in Hs.
  destruct (Hinv s e Hs) as [He Hno]. simpl. split; [lia|].
  intros ev Hin Hlt. apply in_app_iff in Hin. destruct Hin as [Hin|[<-|[]]].
  - exact (Hno ev Hin Hlt).
  - simpl in Hlt. lia.
Qed.

Lemma reachable_invariants w :
  reachable w ->
  wf_stream (_event_stream w)
  /\ ranges_hide_no_delegate_action w
  /\ range_table_ok w.
Proof.
  induction 1 as [es l Hwf|w p src _ (Hwf & Hh & Hok)
                 |w ev _ (Hwf & Hh & Hok) Hin|w _ (Hwf & Hh & Hok)].
  - split; [apply wf_subscribe, Hwf|]. split.
    + intros s e Hs. simpl in Hs. rewrite lookup_empty in Hs.
      destruct Hs as [? Hs]. discriminate.
    + intros s e agent task Hl. simpl in Hl. rewrite lookup_empty in Hl.
      discriminate.
  - split; [apply wf_add_event, Hwf|]. split.
    + now apply append_hides_no_delegate_action.
    + now apply append_range_table_ok.
  - destruct (on_event_frame w ev) as [Hes _]. split; [now rewrite Hes|]. split.
    + now apply on_event_hides_no_delegate_action.
    + now apply on_event_range_table_ok.
  - split; [exact Hwf|]. split.
    + intros s e Hs. simpl in Hs. rewrite lookup_empty in Hs.
      destruct Hs as [? Hs]. discriminate.
    + apply reset_range_table_ok.
Qed.

(** ** The traversal *)

(** C6.  For every stream, range table, bounds, delegate flag and kind
    filter, the reverse traversal yields exactly the forward traversal
    read backwards. *)
Theorem get_events_reverse_is_rev_forward
    (es : EventStream) (ranges : RangeTable) (start_id end_id : option Z)
    (include_delegates : bool) (filter_out_kinds : list string) :
  Stream.get_events es ranges start_id end_id true include_delegates
    filter_out_kinds
  = rev (Stream.get_events es ranges start_id end_id false include_delegates
           filter_out_kinds).
Proof. unfold Stream.get_events. apply descending_rev. Qed.




(** ** The delegate range tracker *)

Lemma reachable_publish src w p :
  reachable w -> reachable (Examples.publish src w p).
Proof.
  intros Hw. unfold Examples.publish. apply reach_deliver.
  - apply reach_append, Hw.
  - simpl. apply in_app_iff. right. left. reflexivity.
Qed.

Lemma reachable_fresh : reachable Examples.fresh.
Proof.
  apply reach_init. split; [reflexivity|]. simpl. lia.
Qed.

Lemma reachable_completion_appended :
  reachable Examples.completion_appended.
Proof.
  apply reach_append. unfold Examples.before_completion. simpl fold_left.
  repeat apply reachable_publish. apply reachable_fresh.
Qed.

(** C1.  In every reachable state, when a delegate-completion observation
    with id E is handed to [on_event]: if the stored events with id at
    most E - 1 contain a delegate action, the one with the largest id, at
    S, gives the single range written, (S, E), with that action's agent
    and the ['task'] entry of its inputs; if they contain none, the
    table is left as it is and the anomaly is logged.  Either way the
    callback returns, and the stream and the start offset are untouched. *)
Theorem on_event_records_nearest_delegate_action
    (w : World) (event : Event)
    (outputs : gmap string string) (content : string) :
  reachable w ->
  payload event = Obs (AgentDelegateObservation outputs content) ->
  (forall prev agent inputs,
      In prev (events (_event_stream w)) ->
      id prev <= id event - 1 ->
      payload prev = Act (AgentDelegateAction agent inputs) ->
      (forall x, In x (events (_event_stream w)) ->
                 id prev < id x <= id event - 1 ->
                 is_delegate_action x = false) ->
      delegates (self (Memory.on_event w event))
      = <[(id prev, id event) := (agent, default "" (inputs !! "task"))]>
          (delegates (self w))
      /\ logged (Memory.on_event w event)
         = logged w ++ [DebugObservationReceived;
                        DebugDelegateRan agent (default "" (inputs !! "task"))
                          (id prev) (id event)])
  /\ ((forall x, In x (events (_event_stream w)) ->
                 id x <= id event - 1 -> is_delegate_action x = false) ->
      delegates (self (Memory.on_event w event)) = delegates (self w)
      /\ logged (Memory.on_event w event)
         = logged w ++ [DebugObservationReceived;
                        ErrorNoDelegateAction (id event)])
  /\ _event_stream (Memory.on_event w event) = _event_stream w
  /\ start_id (self (Memory.on_event w event)) = start_id (self w).
Proof.
  intros Hreach Hp.
  destruct (reachable_invariants w Hreach) as (Hwf & Hhide & _).
  assert (Hobs : is_delegate_observation event = true).
  { unfold is_delegate_observation. rewrite Hp. reflexivity. }
  split; [|split; [|apply on_event_frame]].
  - intros prev agent inputs Hin Hle Hprev Hnear.
    assert (Hda : is_delegate_action prev = true).
    { apply delegate_action_payload. eauto. }
    destruct (in_split _ _ Hin) as (l1 & l2 & Hsplit).
    destruct (wf_split _ l1 prev l2 Hwf Hsplit) as [_ Hgt].
    assert (Hscan : Memory.scan_for_delegate_action
                      (Memory.stream_events w None (Some (id event - 1))
                         true false) (-1, "", "")
                    = (id prev, agent, default "" (inputs !! "task"))).
    { rewrite on_event_traversal, Hsplit, ascending_app. simpl.
      rewrite (delegate_action_visible w (id event) prev Hhide Hin Hle Hda).
      rewrite rev_app_distr. simpl. rewrite <- app_assoc. simpl.
      apply scan_first_delegate_action; [|exact Hprev].
      intros x Hx. apply in_rev, in_ascending in Hx. destruct Hx as [Hx Hvis].
      apply Hnear.
      - rewrite Hsplit. apply in_app_iff. right. now right.
      - split; [apply Hgt, Hx|apply (visible_before_bound w), Hvis]. }
    rewrite (on_event_scan w event _ _ _ Hobs Hscan).
    pose proof (wf_id_range _ _ Hwf Hin) as Hr.
    destruct (id prev =? -1) eqn:Hid; [lia|].
    simpl. rewrite <- app_assoc. split; reflexivity.
  - intros Hnone.
    assert (Hscan : Memory.scan_for_delegate_action
                      (Memory.stream_events w None (Some (id event - 1))
                         true false) (-1, "", "") = (-1, "", "")).
    { apply scan_no_delegate_action. intros x Hx.
      rewrite on_event_traversal in Hx.
      apply in_rev, in_ascending in Hx. destruct Hx as [Hx Hvis].
      apply Hnone; [exact Hx|apply (visible_before_bound w), Hvis]. }
    rewrite (on_event_scan w event _ _ _ Hobs Hscan).
    simpl. rewrite <- app_assoc. split; reflexivity.
Qed.

(** The test scenario: the completion observation at id 5 finds the
    delegate action at id 2, past the two file events in between. *)
Lemma on_event_records_nearest_delegate_action_witness :
  reachable Examples.completion_appended
  /\ payload Examples.completion
     = Obs (AgentDelegateObservation ∅ "Delegate completed")
  /\ delegates (self (Memory.on_event Examples.completion_appended
                        Examples.completion))
     = <[(2, 5) := ("delegate_agent", "delegate_task")]>
         (delegates (self Examples.completion_appended)).
Proof.
  split; [exact reachable_completion_appended|]. split; [reflexivity|].
  refine (proj1 (proj1 (on_event_records_nearest_delegate_action
                   Examples.completion_appended Examples.completion
                   ∅ "Delegate completed"
                   reachable_completion_appended eq_refl)
                 {| id := 2; source := AGENT;
                    payload := Examples.delegate_action |}
                 "delegate_agent" {["task" := "delegate_task"]} _ _ _ _)).
  - vm_compute. right. right. left. reflexivity.
  - simpl. lia.
  - reflexivity.
  - intros x Hx Hr. vm_compute in Hx.
    repeat (destruct Hx as [<-|Hx];
            [first [reflexivity | simpl in Hr; lia]|]).
    destruct Hx.
Defined.

Lemma reachable_reset_inside_delegation :
  reachable Examples.reset_inside_delegation.
Proof.
  apply reach_append, reach_reset. simpl fold_left.
  repeat apply reachable_publish. apply reachable_fresh.
Qed.

(** C4, as stated, fails: a delegation starts at id 0, the memory is
    reset at latest id 1 (its start offset), and the completion
    observation arrives at id 2.  The scan goes below the start offset
    and records the range (0, 2). *)
Lemma range_start_below_start_offset :
  reachable Examples.reset_inside_delegation
  /\ start_id (self Examples.reset_inside_delegation) = 1
  /\ In Examples.late_completion
        (events (_event_stream Examples.reset_inside_delegation))
  /\ delegates (self (Memory.on_event Examples.reset_inside_delegation
                        Examples.late_completion)) !! (0, 2)
     = Some ("delegate_agent", "delegate_task").
Proof.
  split; [exact reachable_reset_inside_delegation|].
  split; [reflexivity|]. split.
  - vm_compute. right. right. left. reflexivity.
  - vm_compute. reflexivity.
Qed.

(** C4, amended.  The backward scan of [on_event] considers the stored
    events with id at most E - 1, down to the first event of the stream:
    a range it adds ends at E and starts at the id of a stored delegate
    action between 0 and E - 1.  The start offset does not bound the
    scan: the table written is the same for every start offset. *)
Theorem on_event_scan_bounds (w : World) (event : Event) :
  wf_stream (_event_stream w) ->
  (forall s e,
      is_Some (delegates (self (Memory.on_event w event)) !! (s, e)) ->
      is_Some (delegates (self w) !! (s, e))
      \/ (e = id event /\ 0 <= s <= id event - 1
          /\ exists prev, In prev (events (_event_stream w))
                          /\ id prev = s /\ is_delegate_action prev = true))
  /\ (forall offset,
        delegates (self (Memory.on_event (with_start_id w offset) event))
        = delegates (self (Memory.on_event w event))).
Proof.
  intros Hwf. split.
  - intros s e Hs.
    destruct (on_event_table w event Hwf)
      as [Heq|(prev & a & inputs & Hin & Hvis & Hp & _ & Heq)];
      rewrite Heq in Hs; [now left|].
    apply lookup_insert_is_Some in Hs. destruct Hs as [Hk|[_ Hs]];
      [|now left].
    inversion Hk; subst s e. right. split; [reflexivity|].
    apply (visible_before_bound w) in Hvis.
    pose proof (wf_id_range _ _ Hwf Hin) as Hr.
    split; [lia|]. exists prev. split; [exact Hin|]. split; [reflexivity|].
    apply delegate_action_payload. eauto.
  - intros offset. unfold Memory.on_event.
    destruct (is_delegate_observation event); simpl; [|reflexivity].
    change (Memory.stream_events (with_start_id w offset))
      with (Memory.stream_events w).
    destruct (Memory.scan_for_delegate_action _ _) as [[ds da] dt].
    destruct (ds =? -1); reflexivity.
Qed.

Lemma on_event_scan_bounds_witness :
  wf_stream (_event_stream Examples.reset_inside_delegation)
  /\ forall offset,
       delegates (self (Memory.on_event
                          (with_start_id Examples.reset_inside_delegation offset)
                          Examples.late_completion))
       = delegates (self (Memory.on_event Examples.reset_inside_delegation
                            Examples.late_completion)).
Proof.
  assert (Hwf : wf_stream (_event_stream Examples.reset_inside_delegation))
    by wf_by_computation.
  split; [exact Hwf|].
  exact (proj2 (on_event_scan_bounds Examples.reset_inside_delegation
                  Examples.late_completion Hwf)).
Defined.

Lemma init_range_table_ok es logged0 :
  range_table_ok (Memory.init es logged0).
Proof.
  intros s e agent task Hl. simpl in Hl. rewrite lookup_empty in Hl.
  discriminate.
Qed.

(** C9.  Call a table in order when every key (s, e) has 0 <= s < e and
    its value is the agent and the ['task'] input (the empty string when
    there is none) of the stored delegate action with id s.  A new
    memory has a table in order.  On a well-formed stream, [on_event]
    keeps a table in order, keeps every key it had and adds at most a
    key ending at the event's id.  [reset] leaves the empty table.  So
    the table is in order in every reachable state. *)
Theorem range_table_invariant :
  (forall es logged0, range_table_ok (Memory.init es logged0))
  /\ (forall (w : World) (event : Event),
        wf_stream (_event_stream w) ->
        range_table_ok w ->
        range_table_ok (Memory.on_event w event)
        /\ (forall s e agent task src agent' inputs,
              delegates (self (Memory.on_event w event)) !! (s, e)
              = Some (agent, task) ->
              In {| id := s; source := src;
                    payload := Act (AgentDelegateAction agent' inputs) |}
                 (events (_event_stream w)) ->
              0 <= s < e /\ (inputs !! "task" = None -> task = ""))
        /\ (forall k, is_Some (delegates (self w) !! k) ->
              is_Some (delegates (self (Memory.on_event w event)) !! k))
        /\ (forall k,
              is_Some (delegates (self (Memory.on_event w event)) !! k) ->
              is_Some (delegates (self w) !! k) \/ snd k = id event))
  /\ (forall w : World,
        range_table_ok (Memory.reset w)
        /\ delegates (self (Memory.reset w)) = ∅)
  /\ (forall w : World, reachable w -> range_table_ok w).
Proof.
  split; [exact init_range_table_ok|]. split; [|split].
  - intros w event Hwf Hok.
    pose proof (on_event_range_table_ok w event Hwf Hok) as Hok'.
    split; [exact Hok'|]. split; [|split].
    + intros s e agent task src agent' inputs Hl Hin.
      destruct (Hok' s e agent task Hl) as (Hr & src0 & inputs0 & Hin0 & Ht).
      split; [exact Hr|]. intros Hnone.
      destruct (on_event_frame w event) as [Hes _]. rewrite Hes in Hin0.
      pose proof (wf_id_inj _ _ _ Hwf Hin Hin0 eq_refl) as Heq.
      inversion Heq; subst. rewrite Hnone. reflexivity.
    + intros k Hk.
      destruct (on_event_table w event Hwf)
        as [Heq|(prev & a & inputs & _ & _ & _ & _ & Heq)];
        rewrite Heq; [exact Hk|].
      apply lookup_insert_is_Some.
      destruct (decide ((id prev, id event) = k)); [now left|now right].
    + intros k Hk.
      destruct (on_event_table w event Hwf)
        as [Heq|(prev & a & inputs & _ & _ & _ & _ & Heq)];
        rewrite Heq in Hk; [now left|].
      apply lookup_insert_is_Some in Hk. destruct Hk as [<-|[_ Hk]];
        [now right|now left].
  - intros w. split; [apply reset_range_table_ok|reflexivity].
  - intros w Hw. apply reachable_invariants, Hw.
Qed.

Lemma after_completion_table_ok : range_table_ok Examples.after_completion.
Proof.
  assert (Ht : delegates (self Examples.after_completion)
               = {[ (2, 5) := ("delegate_agent", "delegate_task") ]})
    by (vm_compute; reflexivity).
  intros s e agent task Hl. rewrite Ht in Hl.
  apply lookup_singleton_Some in Hl. destruct Hl as [Hk Hv].
  inversion Hk; inversion Hv; subst. split; [lia|].
  exists AGENT, {["task" := "delegate_task"]}. split; [|reflexivity].
  vm_compute. right. right. left. reflexivity.
Qed.

(** A second completion observation, id 7, on the test scenario. *)
Lemma range_table_invariant_witness :
  wf_stream (_event_stream Examples.after_completion)
  /\ range_table_ok Examples.after_completion
  /\ range_table_ok
       (Memory.on_event Examples.after_completion
          {| id := 7; source := AGENT;
             payload := Examples.delegate_observation |}).
Proof.
  assert (Hwf : wf_stream (_event_stream Examples.after_completion))
    by wf_by_computation.
  split; [exact Hwf|]. split; [exact after_completion_table_ok|].
  exact (proj1 (proj1 (proj2 range_table_invariant)
                  Examples.after_completion
                  {| id := 7; source := AGENT;
                     payload := Examples.delegate_observation |}
                  Hwf after_completion_table_ok)).
Defined.

(** C7.  [reset] empties the range table and sets the start offset to
    the stream's latest event id; the stream (persisted records,
    in-memory sequence, id counter, subscribers) and the log are as
    before. *)
Theorem reset_clears_table_and_moves_offset (w : World) :
  delegates (self (Memory.reset w)) = ∅
  /\ start_id (self (Memory.reset w))
     = Stream.get_latest_event_id (_event_stream w)
  /\ _event_stream (Memory.reset w) = _event_stream w
  /\ file_store (_event_stream (Memory.reset w)) = file_store (_event_stream w)
  /\ events (_event_stream (Memory.reset w)) = events (_event_stream w)
  /\ cur_id (_event_stream (Memory.reset w)) = cur_id (_event_stream w)
  /\ subscribers (_event_stream (Memory.reset w))
     = subscribers (_event_stream w)
  /\ logged (Memory.reset w) = logged w.
Proof. repeat split. Qed.

(** ** The queries *)

Lemma wf_last es evs last :
  wf_stream es -> events es = evs ++ [last] -> id last = cur_id es - 1.
Proof.
  intros [Hids Hc] Hev. rewrite Hev, map_app in Hids. simpl in Hids.
  assert (Hlen : length (map id evs ++ [id last]) = Z.to_nat (cur_id es)).
  { rewrite Hids. apply length_seqZ. }
  rewrite length_app, length_map in Hlen. simpl in Hlen.
  assert (Hl : (map id evs ++ [id last]) !! length evs = Some (id last)).
  { apply list_lookup_middle. now rewrite length_map. }
  rewrite Hids in Hl. apply lookup_seqZ in Hl. lia.
Qed.

(** A reverse traversal bounded below the last event's id never reaches
    that event. *)
Lemma traversal_drops_above es ranges s hi evs x inc f :
  events es = evs ++ [x] -> hi < id x ->
  Stream.get_events es ranges s (Some hi) true inc f
  = rev (Stream.ascending (Stream.emits ranges s (Some hi) inc f) evs).
Proof.
  intros Hev Hlt. unfold Stream.get_events. rewrite descending_rev, Hev.
  rewrite ascending_app. simpl.
  assert (Hx : Stream.emits ranges s (Some hi) inc f x = false).
  { unfold Stream.emits, Stream.in_bounds.
    assert (Hle : (id x <=? hi) = false) by (apply Z.leb_gt; exact Hlt).
    rewrite Hle, andb_false_r. reflexivity. }
  rewrite Hx, app_nil_r. reflexivity.
Qed.

Lemma default_end_id_default w :
  Memory.default_end_id w (-1) = cur_id (_event_stream w) - 1 - 1.
Proof. reflexivity. Qed.

Lemma get_last_action_in w end_id ev :
  Memory.get_last_action w end_id = Some ev ->
  In ev (events (_event_stream w)) /\ is_action ev = true
  /\ start_id (self w) <= id ev <= Memory.default_end_id w end_id.
Proof.
  unfold Memory.get_last_action, Memory.stream_events. intros H.
  apply find_some in H. destruct H as [Hin Ha].
  apply in_get_events in Hin. destruct Hin as [Hin Hem].
  apply emits_true in Hem. destruct Hem as (Hb & _).
  apply in_bounds_true in Hb. destruct Hb as [Hlo Hhi].
  specialize (Hlo _ eq_refl). specialize (Hhi _ eq_refl). auto.
Qed.

Lemma get_last_observation_in w end_id ev :
  Memory.get_last_observation w end_id = Some ev ->
  In ev (events (_event_stream w)) /\ is_observation ev = true
  /\ start_id (self w) <= id ev <= Memory.default_end_id w end_id.
Proof.
  unfold Memory.get_last_observation, Memory.stream_events. intros H.
  apply find_some in H. destruct H as [Hin Ha].
  apply in_get_events in Hin. destruct Hin as [Hin Hem].
  apply emits_true in Hem. destruct Hem as (Hb & _).
  apply in_bounds_true in Hb. destruct Hb as [Hlo Hhi].
  specialize (Hlo _ eq_refl). specialize (Hhi _ eq_refl). auto.
Qed.

(** C8.  Called with the default [end_id] of -1, [get_last_action] and
    [get_last_observation] return only stored events with id at most
    the latest id minus one.  On a well-formed stream the last event has
    the latest id: it is never the value returned, and replacing it by
    any other event with that id leaves both results as they are. *)
Theorem get_last_default_skips_latest_event (w : World) :
  (forall ev, Memory.get_last_action w (-1) = Some ev ->
      In ev (events (_event_stream w)) /\ is_action ev = true
      /\ id ev <= Stream.get_latest_event_id (_event_stream w) - 1)
  /\ (forall ev, Memory.get_last_observation w (-1) = Some ev ->
      In ev (events (_event_stream w)) /\ is_observation ev = true
      /\ id ev <= Stream.get_latest_event_id (_event_stream w) - 1)
  /\ (forall evs last,
        wf_stream (_event_stream w) ->
        events (_event_stream w) = evs ++ [last] ->
        id last = Stream.get_latest_event_id (_event_stream w)
        /\ Memory.get_last_action w (-1) <> Some last
        /\ Memory.get_last_observation w (-1) <> Some last
        /\ forall last', id last' = id last ->
             Memory.get_last_action (with_events w (evs ++ [last'])) (-1)
             = Memory.get_last_action w (-1)
             /\ Memory.get_last_observation (with_events w (evs ++ [last'])) (-1)
                = Memory.get_last_observation w (-1)).
Proof.
  split; [|split].
  - intros ev H. apply get_last_action_in in H.
    unfold Memory.default_end_id in H. simpl in H. tauto.
  - intros ev H. apply get_last_observation_in in H.
    unfold Memory.default_end_id in H. simpl in H. tauto.
  - intros evs last Hwf Hev.
    pose proof (wf_last _ _ _ Hwf Hev) as Hid.
    unfold Stream.get_latest_event_id.
    split; [exact Hid|]. split; [|split].
    + intros H. apply get_last_action_in in H.
      unfold Memory.default_end_id, Stream.get_latest_event_id in H.
      simpl in H. lia.
    + intros H. apply get_last_observation_in in H.
      unfold Memory.default_end_id, Stream.get_latest_event_id in H.
      simpl in H. lia.
    + intros last' Hid'.
      unfold Memory.get_last_action, Memory.get_last_observation,
        Memory.stream_events.
      rewrite !default_end_id_default.
      rewrite (traversal_drops_above (_event_stream w) _ _ _ evs last)
        by (auto; lia).
      rewrite (traversal_drops_above
                 (_event_stream (with_events w (evs ++ [last'])))
                 _ _ _ evs last') by (auto; simpl; lia).
      split; reflexivity.
Qed.

Lemma get_last_default_skips_latest_event_witness :
  wf_stream (_event_stream Examples.after_completion)
  /\ Memory.get_last_action Examples.after_completion (-1)
     <> Some {| id := 6; source := AGENT; payload := Examples.read_action |}.
Proof.
  assert (Hwf : wf_stream (_event_stream Examples.after_completion))
    by wf_by_computation.
  split; [exact Hwf|].
  refine (proj1 (proj2 (proj2 (proj2
            (get_last_default_skips_latest_event Examples.after_completion))
            (events (_event_stream Examples.completion_appended))
            {| id := 6; source := AGENT; payload := Examples.read_action |}
            Hwf _))).
  vm_compute. reflexivity.
Defined.

(** C10.  On a well-formed stream and for n >= 1, [get_last_events n]
    returns at most n events, with strictly ascending ids, none below
    the start offset.  It can return fewer than n: a default-hidden
    kind removes a candidate (2 asked, 1 returned), and so does the
    start offset (2 asked, 1 returned). *)
Theorem get_last_events_bounds :
  (forall (w : World) (n : Z),
      wf_stream (_event_stream w) -> 1 <= n ->
      Z.of_nat (length (Memory.get_last_events w n)) <= n
      /\ StronglySorted Z.lt (map id (Memory.get_last_events w n))
      /\ forall ev, In ev (Memory.get_last_events w n) ->
                    start_id (self w) <= id ev)
  /\ map id (Memory.get_last_events Examples.hidden_last 2) = [1]
  /\ map id (Memory.get_last_events Examples.reset_after_task 2) = [1].
Proof.
  split; [|split; vm_compute; reflexivity].
  intros w n Hwf Hn.
  assert (Hsorted : StronglySorted Z.lt (map id (Memory.get_last_events w n))).
  { unfold Memory.get_last_events, Memory.stream_events, Stream.get_events.
    apply ascending_ids_sorted, wf_ids_sorted, Hwf. }
  assert (Hrange : forall ev, In ev (Memory.get_last_events w n) ->
             Z.max (start_id (self w))
               (Stream.get_latest_event_id (_event_stream w) - n + 1)
             <= id ev <= Stream.get_latest_event_id (_event_stream w)).
  { intros ev Hin. unfold Memory.get_last_events, Memory.stream_events in Hin.
    apply in_get_events in Hin. destruct Hin as [_ Hem].
    apply emits_true in Hem. destruct Hem as (Hb & _).
    apply in_bounds_true in Hb. destruct Hb as [Hlo Hhi].
    specialize (Hlo _ eq_refl). specialize (Hhi _ eq_refl). lia. }
  split; [|split; [exact Hsorted|]].
  - rewrite <- (length_map id).
    pose proof (sorted_in_range_length _
                  (Z.max (start_id (self w))
                     (Stream.get_latest_event_id (_event_stream w) - n + 1))
                  (Stream.get_latest_event_id (_event_stream w)) Hsorted)
      as Hlen.
    assert (Hall : Forall
              (fun i => Z.max (start_id (self w))
                          (Stream.get_latest_event_id (_event_stream w) - n + 1)
                        <= i <= Stream.get_latest_event_id (_event_stream w))
              (map id (Memory.get_last_events w n))).
    { apply Forall_forall. intros i Hi.
      apply list_elem_of_In, in_map_iff in Hi. destruct Hi as (ev & <- & Hev).
      apply Hrange, Hev. }
    specialize (Hlen Hall). lia.
  - intros ev Hin. specialize (Hrange ev Hin). lia.
Qed.

Lemma get_last_events_bounds_witness :
  wf_stream (_event_stream Examples.after_completion)
  /\ 1 <= 3
  /\ Z.of_nat (length (Memory.get_last_events Examples.after_completion 3)) <= 3.
Proof.
  assert (Hwf : wf_stream (_event_stream Examples.after_completion))
    by wf_by_computation.
  assert (H3 : 1 <= 3) by lia.
  split; [exact Hwf|]. split; [exact H3|].
  exact (proj1 (proj1 get_last_events_bounds Examples.after_completion 3
                  Hwf H3)).
Defined.

Lemma offset_traversal_visible w hi r ev :
  In ev (Memory.stream_events w (Some (start_id (self w))) hi r false) ->
  offset_visible w ev.
Proof.
  unfold Memory.stream_events. intros Hin.
  apply in_get_events in Hin. destruct Hin as [Hin Hem].
  apply emits_true in Hem. destruct Hem as (Hb & Hk & [Hinc|Hout]);
    [discriminate|].
  apply in_bounds_true in Hb. destruct Hb as [Hlo _].
  specialize (Hlo _ eq_refl). repeat split; assumption.
Qed.

Lemma get_last_action_visible w end_id ev :
  Memory.get_last_action w end_id = Some ev -> offset_visible w ev.
Proof.
  unfold Memory.get_last_action. intros H. apply find_some in H.
  destruct H as [Hin _]. exact (offset_traversal_visible _ _ _ _ Hin).
Qed.

Lemma get_last_observation_visible w end_id ev :
  Memory.get_last_observation w end_id = Some ev -> offset_visible w ev.
Proof.
  unfold Memory.get_last_observation. intros H. apply find_some in H.
  destruct H as [Hin _]. exact (offset_traversal_visible _ _ _ _ Hin).
Qed.





(** *** [get_current_user_intent] *)

Lemma find_snoc {A} (f : A -> bool) (l : list A) (x : A) :
  List.find f (l ++ [x])
  = match List.find f l with
    | Some y => Some y
    | None => if f x then Some x else None
    end.
Proof.
  induction l as [|y l IH]; simpl; [reflexivity|].
  destruct (f y); [reflexivity|exact IH].
Qed.

Lemma current_user_intent_loop_user ev evs m u :
  is_user_message ev = true ->
  Memory.current_user_intent_loop (ev :: evs) m u
  = Memory.current_user_intent_loop evs (Some (message_content ev))
      (message_images_urls ev).
Proof.
  unfold is_user_message, message_content, message_images_urls. simpl.
  destruct (payload ev) as [[]|]; destruct (source ev);
    intros H; try discriminate; reflexivity.
Qed.

Lemma current_user_intent_loop_skip ev evs m u :
  is_user_message ev = false -> is_finish ev = false ->
  Memory.current_user_intent_loop (ev :: evs) m u
  = Memory.current_user_intent_loop evs m u.
Proof.
  unfold is_user_message, is_finish. simpl.
  destruct (payload ev) as [[]|]; destruct (source ev);
    intros H1 H2; try discriminate; reflexivity.
Qed.

(** Without a finish action in sight the loop runs to its end and
    returns a pair: the first user message in stream order, or what it
    started with. *)
Lemma current_user_intent_loop_no_finish (evs : list Event) m u :
  (forall ev, In ev evs -> is_finish ev = false) ->
  Memory.current_user_intent_loop evs m u
  = match List.find is_user_message (rev evs) with
    | Some ev => ReturnPair (Some (message_content ev)) (message_images_urls ev)
    | None => ReturnPair m u
    end.
Proof.
  revert m u. induction evs as [|ev evs IH]; intros m u Hno;
    [reflexivity|].
  assert (Hev : is_finish ev = false) by (apply Hno; now left).
  assert (Hrest : forall x, In x evs -> is_finish x = false)
    by (intros x Hx; apply Hno; now right).
  simpl rev. rewrite find_snoc.
  destruct (is_user_message ev) eqn:Hu.
  - rewrite current_user_intent_loop_user by exact Hu.
    rewrite IH by exact Hrest.
    destruct (List.find is_user_message (rev evs)); reflexivity.
  - rewrite current_user_intent_loop_skip by assumption.
    rewrite IH by exact Hrest.
    destruct (List.find is_user_message (rev evs)); reflexivity.
Qed.

Lemma get_current_user_intent_no_finish w :
  (forall ev, In ev (events (_event_stream w)) -> is_finish ev = false) ->
  Memory.get_current_user_intent w
  = match List.find is_user_message (Memory.get_events w false false) with
    | Some ev => ReturnPair (Some (message_content ev)) (message_images_urls ev)
    | None => ReturnPair None (Some [])
    end.
Proof.
  intros Hno. unfold Memory.get_current_user_intent.
  rewrite current_user_intent_loop_no_finish.
  - unfold Memory.get_events, Memory.stream_events.
    rewrite get_events_forward_of_reverse. reflexivity.
  - intros ev Hin. unfold Memory.stream_events in Hin.
    apply in_get_events in Hin. apply Hno, Hin.
Qed.

(** C3, on a stream the code can hold: a task, a finish, then two more
    user messages.  The loop meets the finish action with a message in
    hand and returns that message alone, not a pair; the message is the
    first one after the finish, while the latest is another. *)
Theorem get_current_user_intent_returns_bare_text :
  map variant_name (events (_event_stream Examples.two_tasks))
  = ["MessageAction"; "AgentFinishAction"; "MessageAction"; "MessageAction"]
  /\ Memory.get_current_user_intent Examples.two_tasks
     = ReturnText "second task"
  /\ (forall text image_urls,
        Memory.get_current_user_intent Examples.two_tasks
        <> ReturnPair text image_urls)
  /\ Memory.get_last_user_message Examples.two_tasks = "please hurry".
Proof.
  assert (H : Memory.get_current_user_intent Examples.two_tasks
              = ReturnText "second task") by (vm_compute; reflexivity).
  split; [vm_compute; reflexivity|]. split; [exact H|]. split.
  - intros text image_urls. rewrite H. discriminate.
  - vm_compute. reflexivity.
Qed.

(** C5, on a state the code can reach: a user message (id 0), an action
    (id 1), then [reset], which puts the start offset at 1.  The user
    message lies below the offset and [get_last_user_message] no longer
    sees it, but [get_current_user_intent] still returns it. *)
Theorem get_current_user_intent_reads_below_start_offset :
  start_id (self Examples.reset_after_task) = 1
  /\ map id (events (_event_stream Examples.reset_after_task)) = [0; 1]
  /\ Memory.get_last_user_message Examples.reset_after_task = ""
  /\ Memory.get_current_user_intent Examples.reset_after_task
     = ReturnPair (Some "old task") None.
Proof. repeat split; vm_compute; reflexivity. Qed.

(** * Further properties *)

(** ** The most recent match of a reverse traversal *)













(** ** [get_last_events] *)

Lemma ascending_none keep (l : list Event) :
  (forall ev, In ev l -> keep ev = false) -> Stream.ascending keep l = [].
Proof.
  induction l as [|x l IH]; intros H; simpl; [reflexivity|].
  rewrite (H x) by now left. apply IH. intros ev Hev. apply H. now right.
Qed.

Lemma ascending_all keep (l : list Event) :
  (forall ev, In ev l -> keep ev = true) -> Stream.ascending keep l = l.
Proof.
  induction l as [|x l IH]; intros H; simpl; [reflexivity|].
  rewrite (H x) by now left. f_equal. apply IH. intros ev Hev. apply H.
  now right.
Qed.

Lemma ascending_ext keep1 keep2 (l : list Event) :
  (forall ev, In ev l -> keep1 ev = keep2 ev) ->
  Stream.ascending keep1 l = Stream.ascending keep2 l.
Proof.
  induction l as [|x l IH]; intros H; simpl; [reflexivity|].
  rewrite (H x) by now left.
  rewrite IH by (intros ev Hev; apply H; now right). reflexivity.
Qed.

(** X5.  [get_last_events n] with n <= 0 returns the empty list,
    whatever the stream holds. *)
Theorem get_last_events_nonpositive (w : World) (n : Z) :
  n <= 0 -> Memory.get_last_events w n = [].
Proof.
  intros Hn. unfold Memory.get_last_events, Memory.stream_events,
    Stream.get_events.
  apply ascending_none. intros ev _. unfold Stream.emits, Stream.in_bounds.
  destruct (Z.max _ _ <=? id ev) eqn:Hlo; [|reflexivity].
  destruct (id ev <=? _) eqn:Hhi; [|reflexivity].
  apply Z.leb_le in Hlo, Hhi. lia.
Qed.

Lemma get_last_events_nonpositive_witness :
  0 <= 0 /\ Memory.get_last_events Examples.after_completion 0 = [].
Proof.
  assert (H : 0 <= 0) by lia. split; [exact H|].
  exact (get_last_events_nonpositive Examples.after_completion 0 H).
Defined.

(** X7.  Asking for more events loses none: what [get_last_events n]
    returns is returned for every m >= n. *)
Theorem get_last_events_monotone (w : World) (n m : Z) (ev : Event) :
  n <= m ->
  In ev (Memory.get_last_events w n) -> In ev (Memory.get_last_events w m).
Proof.
  intros Hnm. unfold Memory.get_last_events, Memory.stream_events.
  rewrite !in_get_events, !emits_true, !in_bounds_true.
  intros (Hin & (Hlo & Hhi) & Hrest). split; [exact Hin|].
  split; [|exact Hrest]. split; [|exact Hhi].
  intros lo Hlo'. inversion Hlo'; subst. specialize (Hlo _ eq_refl). lia.
Qed.

Lemma get_last_events_monotone_witness :
  2 <= 5
  /\ In {| id := 6; source := AGENT; payload := Examples.read_action |}
        (Memory.get_last_events Examples.after_completion 2)
  /\ In {| id := 6; source := AGENT; payload := Examples.read_action |}
        (Memory.get_last_events Examples.after_completion 5).
Proof.
  assert (H : 2 <= 5) by lia.
  assert (Hin : In {| id := 6; source := AGENT;
                      payload := Examples.read_action |}
                   (Memory.get_last_events Examples.after_completion 2)).
  { vm_compute. right. left. reflexivity. }
  split; [exact H|]. split; [exact Hin|].
  exact (get_last_events_monotone Examples.after_completion 2 5 _ H Hin).
Defined.





(** ** Redelivery and delivery order *)

Lemma strictly_inside_insert (ranges : RangeTable) (S E : Z) v (i : Z) :
  Stream.strictly_inside (<[(S, E) := v]> ranges) i
  = Stream.strictly_inside ranges i || ((S <? i) && (i <? E)).
Proof.
  apply eq_true_iff_eq.
  rewrite orb_true_iff, !strictly_inside_true, andb_true_iff, !Z.ltb_lt.
  split.
  - intros (s & e & Hs & Hlt). apply lookup_insert_is_Some in Hs.
    destruct Hs as [Hk|[_ Hs]].
    + inversion Hk; subst. right. lia.
    + left. eauto.
  - intros [(s & e & Hs & Hlt)|Hlt].
    + exists s, e. split; [|exact Hlt]. apply lookup_insert_is_Some.
      destruct (decide ((S, E) = (s, e))); [now left|now right].
    + exists S, E. split; [|lia]. apply lookup_insert_is_Some. now left.
Qed.

Lemma ascending_and p q (l : list Event) :
  Stream.ascending (fun x => p x && q x) l
  = Stream.ascending q (Stream.ascending p l).
Proof.
  induction l as [|x l IH]; simpl; [reflexivity|].
  destruct (p x); simpl; [|exact IH].
  destruct (q x); now rewrite IH.
Qed.

Lemma ascending_rev q (l : list Event) :
  Stream.ascending q (rev l) = rev (Stream.ascending q l).
Proof.
  induction l as [|x l IH]; simpl; [reflexivity|].
  rewrite ascending_app, IH. simpl.
  destruct (q x); simpl; [reflexivity|apply app_nil_r].
Qed.

(** X8.  Delivering the same event a second time leaves the range table
    as the first delivery left it. *)
Theorem on_event_redelivery (w : World) (event : Event) :
  delegates (self (Memory.on_event (Memory.on_event w event) event))
  = delegates (self (Memory.on_event w event)).
Proof.
  destruct (is_delegate_observation event) eqn:Hobs;
    [|now rewrite !on_event_ignores].
  destruct (scan_cases
              (Memory.stream_events w None (Some (id event - 1)) true false)
              (-1, "", ""))
    as [[Hs _]|(l1 & prev & l2 & agent & inputs & Hl & Hno & Hp & Hs)].
  - rewrite (on_event_scan w event _ _ _ Hobs Hs). simpl.
    match goal with |- delegates (self (Memory.on_event ?w1 _)) = _ =>
      rewrite (on_event_scan w1 event _ _ _ Hobs Hs) end.
    reflexivity.
  - rewrite (on_event_scan w event _ _ _ Hobs Hs).
    destruct (id prev =? -1) eqn:Hid.
    + match goal with |- delegates (self (Memory.on_event ?w1 _)) = _ =>
        rewrite (on_event_scan w1 event _ _ _ Hobs Hs) end.
      rewrite Hid. reflexivity.
    + match goal with |- delegates (self (Memory.on_event ?w1 _)) = _ =>
        set (w' := w1) end.
      assert (Hs' : Memory.scan_for_delegate_action
                      (Memory.stream_events w' None (Some (id event - 1))
                         true false) (-1, "", "")
                    = (id prev, agent, default "" (inputs !! "task"))).
      { rewrite on_event_traversal.
        change (events (_event_stream w')) with (events (_event_stream w)).
        rewrite (ascending_ext _
                   (fun x => visible_before w (id event) x
                             && negb ((id prev <? id x) && (id x <? id event)))).
        - rewrite ascending_and, <- ascending_rev, <- on_event_traversal, Hl.
          rewrite ascending_app. simpl.
          rewrite Z.ltb_irrefl. simpl.
          apply scan_first_delegate_action; [|exact Hp].
          intros x Hx. apply in_ascending in Hx. apply Hno, Hx.
        - intros x _. unfold visible_before, Stream.emits. subst w'.
          cbn [delegates self]. rewrite strictly_inside_insert.
          destruct (Stream.in_bounds None (Some (id event - 1)) (id x));
            destruct (Stream.kind_hidden Stream.DEFAULT_HIDDEN x);
            destruct (Stream.strictly_inside (delegates (self w)) (id x));
            destruct ((id prev <? id x) && (id x <? id event));
            reflexivity. }
      rewrite (on_event_scan w' event _ _ _ Hobs Hs'). rewrite Hid.
      subst w'. simpl. apply insert_insert_eq.
Qed.

Lemma scan_only_delegate_actions (l : list Event) found :
  Memory.scan_for_delegate_action l found
  = Memory.scan_for_delegate_action
      (Stream.ascending is_delegate_action l) found.
Proof.
  induction l as [|x l IH]; simpl; [reflexivity|].
  unfold is_delegate_action at 1.
  destruct (payload x) as [[]|] eqn:Hp; simpl; rewrite ?Hp; auto.
Qed.

(** When no delegate action is hidden, [on_event] writes what
    [record_range] says. *)
Lemma on_event_record w event :
  ranges_hide_no_delegate_action w ->
  delegates (self (Memory.on_event w event))
  = record_range (events (_event_stream w)) event (delegates (self w)).
Proof.
  intros Hinv. unfold record_range.
  destruct (is_delegate_observation event) eqn:Hobs;
    [|now rewrite on_event_ignores].
  simpl negb. cbv iota.
  assert (Hscan :
    Memory.scan_for_delegate_action
      (Memory.stream_events w None (Some (id event - 1)) true false)
      (-1, "", "")
    = Memory.scan_for_delegate_action
        (rev (Stream.ascending (fun ev => id ev <=? id event - 1)
                (events (_event_stream w)))) (-1, "", "")).
  { rewrite on_event_traversal.
    rewrite (scan_only_delegate_actions (rev (Stream.ascending
               (visible_before w (id event)) _))).
    rewrite (scan_only_delegate_actions (rev (Stream.ascending
               (fun ev => id ev <=? id event - 1) _))).
    rewrite !ascending_rev, <- !ascending_and. f_equal. f_equal.
    apply ascending_ext. intros x Hx.
    destruct (is_delegate_action x) eqn:Hda;
      [|now rewrite !andb_false_r].
    rewrite !andb_true_r.
    destruct (id x <=? id event - 1) eqn:Hle.
    - apply Z.leb_le in Hle. now apply delegate_action_visible.
    - apply not_true_is_false. intros Hv.
      apply visible_before_bound in Hv. apply Z.leb_gt in Hle. lia. }
  destruct (Memory.scan_for_delegate_action
              (rev (Stream.ascending _ _)) _) as [[ds da] dt] eqn:Hs.
  rewrite (on_event_scan w event ds da dt Hobs Hscan).
  destruct (ds =? -1); reflexivity.
Qed.

Lemma record_range_comm (evs : list Event) (e1 e2 : Event)
    (ranges : RangeTable) :
  record_range evs e2 (record_range evs e1 ranges)
  = record_range evs e1 (record_range evs e2 ranges).
Proof.
  unfold record_range.
  destruct (is_delegate_observation e1), (is_delegate_observation e2);
    simpl; try reflexivity.
  destruct (Memory.scan_for_delegate_action
              (rev (Stream.ascending (fun ev => id ev <=? id e1 - 1) evs)) _)
    as [[s1 a1] t1] eqn:H1.
  destruct (Memory.scan_for_delegate_action
              (rev (Stream.ascending (fun ev => id ev <=? id e2 - 1) evs)) _)
    as [[s2 a2] t2] eqn:H2.
  destruct (s1 =? -1), (s2 =? -1); try reflexivity.
  destruct (decide (id e1 = id e2)) as [Heq|Hne].
  - rewrite Heq in H1. rewrite H1 in H2. inversion H2; subst.
    rewrite Heq. reflexivity.
  - apply insert_insert_ne. intros Hk. inversion Hk. congruence.
Qed.

(** X9.  In a reachable state, delivering two stored events in either
    order gives the same range table. *)
Theorem on_event_delivery_order (w : World) (e1 e2 : Event) :
  reachable w ->
  In e1 (events (_event_stream w)) ->
  In e2 (events (_event_stream w)) ->
  delegates (self (Memory.on_event (Memory.on_event w e1) e2))
  = delegates (self (Memory.on_event (Memory.on_event w e2) e1)).
Proof.
  intros Hreach H1 H2.
  destruct (reachable_invariants w Hreach) as (Hwf & Hhide & _).
  pose proof (on_event_hides_no_delegate_action w e1 Hwf H1 Hhide) as Hh1.
  pose proof (on_event_hides_no_delegate_action w e2 Hwf H2 Hhide) as Hh2.
  rewrite (on_event_record _ e2 Hh1), (on_event_record _ e1 Hh2).
  rewrite (proj1 (on_event_frame w e1)), (proj1 (on_event_frame w e2)).
  rewrite (on_event_record w e1 Hhide), (on_event_record w e2 Hhide).
  apply record_range_comm.
Qed.

Lemma reachable_two_pending : reachable Scenarios.two_pending.
Proof.
  unfold Scenarios.two_pending.
  apply reach_append, reach_append, reachable_publish, reachable_fresh.
Qed.

Lemma on_event_delivery_order_witness :
  reachable Scenarios.two_pending
  /\ In Scenarios.first_completion (events (_event_stream Scenarios.two_pending))
  /\ In Scenarios.second_completion
        (events (_event_stream Scenarios.two_pending))
  /\ delegates (self (Memory.on_event
                        (Memory.on_event Scenarios.two_pending
                           Scenarios.first_completion)
                        Scenarios.second_completion))
     = delegates (self (Memory.on_event
                          (Memory.on_event Scenarios.two_pending
                             Scenarios.second_completion)
                          Scenarios.first_completion)).
Proof.
  assert (H1 : In Scenarios.first_completion
                  (events (_event_stream Scenarios.two_pending)))
    by (vm_compute; tauto).
  assert (H2 : In Scenarios.second_completion
                  (events (_event_stream Scenarios.two_pending)))
    by (vm_compute; tauto).
  split; [exact reachable_two_pending|]. split; [exact H1|].
  split; [exact H2|].
  exact (on_event_delivery_order Scenarios.two_pending
           Scenarios.first_completion Scenarios.second_completion
           reachable_two_pending H1 H2).
Defined.

(** ** The shape of the range table *)

Lemma reachable_ranges_end w :
  reachable w -> ranges_end_at_observation w.
Proof.
  induction 1 as [es l Hwf|w p src Hw IH|w ev Hw IH Hin|w Hw IH].
  - intros s e Hs. simpl in Hs. rewrite lookup_empty in Hs.
    destruct Hs as [? Hs]. discriminate.
  - intros s e Hs. simpl in Hs. destruct (IH s e Hs) as (o & Ho & Hid & Hobs).
    exists o. split; [simpl; apply in_app_iff; now left|]. now split.
  - destruct (reachable_invariants w Hw) as (Hwf & _ & _).
    destruct (is_delegate_observation ev) eqn:Hobs;
      [|now rewrite on_event_ignores].
    intros s e Hs. rewrite (proj1 (on_event_frame w ev)).
    destruct (on_event_table w ev Hwf)
      as [Heq|(prev & a & inputs & _ & _ & _ & _ & Heq)];
      rewrite Heq in Hs; [exact (IH s e Hs)|].
    apply lookup_insert_is_Some in Hs. destruct Hs as [Hk|[_ Hs]];
      [|exact (IH s e Hs)].
    inversion Hk; subst. exists ev. now repeat split.
  - intros s e Hs. simpl in Hs. rewrite lookup_empty in Hs.
    destruct Hs as [? Hs]. discriminate.
Qed.

(** X10.  In every reachable state, each recorded range (s, e) starts at
    the id of a stored delegate action, ends at the id of a stored
    delegate observation, has 0 <= s < e below the id counter, and has
    no delegate action strictly inside. *)
Theorem reachable_range_shape (w : World) (s e : Z) :
  reachable w ->
  is_Some (delegates (self w) !! (s, e)) ->
  (exists a, In a (events (_event_stream w)) /\ id a = s
             /\ is_delegate_action a = true)
  /\ (exists o, In o (events (_event_stream w)) /\ id o = e
                /\ is_delegate_observation o = true)
  /\ 0 <= s < e /\ e < cur_id (_event_stream w)
  /\ forall ev, In ev (events (_event_stream w)) -> s < id ev < e ->
                is_delegate_action ev = false.
Proof.
  intros Hreach Hs.
  destruct (reachable_invariants w Hreach) as (Hwf & Hhide & Hok).
  destruct (Hhide s e Hs) as [Hlt Hno].
  destruct Hs as [[agent task] Hl].
  destruct (Hok s e agent task Hl) as (Hr & src & inputs & Hin & _).
  split; [|split; [|split; [exact Hr|split; [exact Hlt|exact Hno]]]].
  - eexists. split; [exact Hin|]. split; reflexivity.
  - apply (reachable_ranges_end w Hreach s e). eauto.
Qed.

Lemma reachable_after_completion : reachable Examples.after_completion.
Proof.
  unfold Examples.after_completion. apply reachable_publish, reach_deliver.
  - exact reachable_completion_appended.
  - vm_compute. tauto.
Qed.

Lemma reachable_range_shape_witness :
  reachable Examples.after_completion
  /\ is_Some (delegates (self Examples.after_completion) !! (2, 5))
  /\ 5 < cur_id (_event_stream Examples.after_completion).
Proof.
  assert (H : is_Some (delegates (self Examples.after_completion) !! (2, 5))).
  { exists ("delegate_agent", "delegate_task"). vm_compute. reflexivity. }
  split; [exact reachable_after_completion|]. split; [exact H|].
  exact (proj1 (proj2 (proj2 (proj2
           (reachable_range_shape Examples.after_completion 2 5
              reachable_after_completion H))))).
Defined.

(** X11.  In every reachable state, two recorded ranges start at the
    same id or are disjoint: neither starts strictly inside the other,
    and none starts where another ends. *)
Theorem reachable_ranges_share_start_or_disjoint
    (w : World) (s1 e1 s2 e2 : Z) :
  reachable w ->
  is_Some (delegates (self w) !! (s1, e1)) ->
  is_Some (delegates (self w) !! (s2, e2)) ->
  s1 = s2 \/ e1 < s2 \/ e2 < s1.
Proof.
  intros Hreach H1 H2.
  destruct (reachable_invariants w Hreach) as (Hwf & Hhide & Hok).
  pose proof (reachable_ranges_end w Hreach) as Hend.
  assert (Hstart : forall s e, is_Some (delegates (self w) !! (s, e)) ->
            exists a, In a (events (_event_stream w)) /\ id a = s
                      /\ is_delegate_action a = true).
  { intros s e [[agent task] Hl].
    destruct (Hok s e agent task Hl) as (_ & src & inputs & Hin & _).
    eexists. split; [exact Hin|]. split; reflexivity. }
  assert (Hsep : forall s e s' e',
            is_Some (delegates (self w) !! (s, e)) ->
            is_Some (delegates (self w) !! (s', e')) ->
            s' <= s \/ e < s').
  { intros s e s' e' Hse Hse'.
    destruct (Hstart s' e' Hse') as (a & Ha & Hida & Hda).
    destruct (Hhide s e Hse) as [_ Hno].
    destruct (Hend s e Hse) as (o & Ho & Hido & Hobs).
    destruct (Z_le_gt_dec s' s) as [Hle|Hgt]; [now left|right].
    destruct (Z_lt_le_dec s' e) as [Hlt|Hge].
    - rewrite (Hno a Ha) in Hda by lia. discriminate.
    - destruct (Z.eq_dec s' e) as [Heq|Hne]; [|lia].
      assert (a = o) by (apply (wf_id_inj _ _ _ Hwf); auto; lia). subst o.
      unfold is_delegate_action in Hda.
      unfold is_delegate_observation in Hobs.
      destruct (payload a) as [[]|[]]; discriminate. }
  destruct (Hsep s1 e1 s2 e2 H1 H2) as [Ha|Ha]; [|now right; left].
  destruct (Hsep s2 e2 s1 e1 H2 H1) as [Hb|Hb]; [left; lia|now right; right].
Qed.

Lemma reachable_two_completions : reachable Examples.two_completions.
Proof.
  unfold Examples.two_completions. simpl fold_left.
  repeat apply reachable_publish. apply reachable_fresh.
Qed.

Lemma reachable_ranges_share_start_or_disjoint_witness :
  reachable Examples.two_completions
  /\ is_Some (delegates (self Examples.two_completions) !! (0, 1))
  /\ is_Some (delegates (self Examples.two_completions) !! (0, 2))
  /\ (0 = 0 \/ 1 < 0 \/ 2 < 0).
Proof.
  assert (H1 : is_Some (delegates (self Examples.two_completions) !! (0, 1))).
  { exists ("delegate_agent", "delegate_task"). vm_compute. reflexivity. }
  assert (H2 : is_Some (delegates (self Examples.two_completions) !! (0, 2))).
  { exists ("delegate_agent", "delegate_task"). vm_compute. reflexivity. }
  split; [exact reachable_two_completions|]. split; [exact H1|].
  split; [exact H2|].
  exact (reachable_ranges_share_start_or_disjoint Examples.two_completions
           0 1 0 2 reachable_two_completions H1 H2).
Defined.

(** ** Appending *)

Lemma ascending_singleton keep (x : Event) :
  Stream.ascending keep [x] = if keep x then [x] else [].
Proof. reflexivity. Qed.



(** ** What a new or reset memory sees *)

Lemma strictly_inside_empty (i : Z) :
  Stream.strictly_inside (∅ : RangeTable) i = false.
Proof. unfold Stream.strictly_inside. now rewrite map_to_list_empty. Qed.

(** With an empty table and the start offset at the latest id, the
    offset-bounded traversal shows the last event alone. *)
Lemma view_at_latest w evs last r hi :
  wf_stream (_event_stream w) ->
  events (_event_stream w) = evs ++ [last] ->
  delegates (self w) = ∅ ->
  start_id (self w) = cur_id (_event_stream w) - 1 ->
  (forall b, hi = Some b -> cur_id (_event_stream w) - 1 <= b) ->
  Memory.stream_events w (Some (start_id (self w))) hi r false
  = if Stream.kind_hidden Stream.DEFAULT_HIDDEN last then [] else [last].
Proof.
  intros Hwf Hev Hempty Hstart Hhi.
  pose proof (wf_last _ _ _ Hwf Hev) as Hlast.
  destruct (wf_split _ evs last [] Hwf Hev) as [Hlt _].
  assert (Hfwd : Memory.stream_events w (Some (start_id (self w))) hi false false
                 = if Stream.kind_hidden Stream.DEFAULT_HIDDEN last
                   then [] else [last]).
  { unfold Memory.stream_events, Stream.get_events.
    rewrite Hev, ascending_app, ascending_none.
    - rewrite ascending_singleton. unfold Stream.emits.
      assert (Hb : Stream.in_bounds (Some (start_id (self w))) hi (id last)
                   = true).
      { apply in_bounds_true. split.
        - intros lo Hlo. inversion Hlo; subst. lia.
        - intros b Hb. specialize (Hhi b Hb). lia. }
      rewrite Hb, Hempty, strictly_inside_empty.
      destruct (Stream.kind_hidden Stream.DEFAULT_HIDDEN last); reflexivity.
    - intros ev Hin. specialize (Hlt ev Hin).
      unfold Stream.emits, Stream.in_bounds.
      assert (Hlo : (start_id (self w) <=? id ev) = false)
        by (apply Z.leb_gt; lia).
      rewrite Hlo. reflexivity. }
  destruct r; [|exact Hfwd].
  unfold Memory.stream_events in *.
  rewrite <- (rev_involutive (Stream.get_events _ _ _ _ true _ _)).
  rewrite get_events_forward_of_reverse, Hfwd.
  destruct (Stream.kind_hidden Stream.DEFAULT_HIDDEN last); reflexivity.
Qed.

(** With the start offset at the latest id, the default end id lies
    below it. *)
Lemma nothing_before_latest w g :
  start_id (self w) = cur_id (_event_stream w) - 1 ->
  List.find g
    (Memory.stream_events w (Some (start_id (self w)))
       (Some (Memory.default_end_id w (-1))) true false) = None.
Proof.
  intros Hstart.
  destruct (List.find g _) as [ev|] eqn:Hf; [|reflexivity].
  apply find_some in Hf. destruct Hf as [Hin _].
  unfold Memory.stream_events in Hin. apply in_get_events in Hin.
  destruct Hin as [_ Hem]. apply emits_true in Hem.
  destruct Hem as (Hb & _). apply in_bounds_true in Hb.
  destruct Hb as [Hlo Hhi]. specialize (Hlo _ eq_refl).
  specialize (Hhi _ eq_refl). rewrite default_end_id_default in Hhi. lia.
Qed.

Lemma message_not_hidden ev :
  (exists content images_urls,
      payload ev = Act (MessageAction content images_urls)) ->
  Stream.kind_hidden Stream.DEFAULT_HIDDEN ev = false.
Proof.
  intros (c & i & Hp). unfold Stream.kind_hidden, variant_name.
  rewrite Hp. reflexivity.
Qed.

Lemma view_queries w evs last (n : Z) :
  wf_stream (_event_stream w) ->
  events (_event_stream w) = evs ++ [last] ->
  delegates (self w) = ∅ ->
  start_id (self w) = cur_id (_event_stream w) - 1 ->
  1 <= n ->
  Memory.get_last_user_message w
  = (if is_user_message last then message_content last else "")
  /\ Memory.get_last_agent_message w
     = (if is_agent_message last then message_content last else "")
  /\ Memory.get_last_events w n
     = (if Stream.kind_hidden Stream.DEFAULT_HIDDEN last then [] else [last])
  /\ Memory.get_last_action w (-1) = None
  /\ Memory.get_last_observation w (-1) = None.
Proof.
  intros Hwf Hev Hempty Hstart Hn.
  split; [|split; [|split; [|split]]].
  - unfold Memory.get_last_user_message.
    rewrite (view_at_latest w evs last true None Hwf Hev Hempty Hstart)
      by discriminate.
    destruct (is_user_message last) eqn:Hu.
    + rewrite message_not_hidden by (unfold is_user_message in Hu;
        destruct (payload last) as [[]|]; try discriminate; eauto).
      simpl. rewrite Hu. reflexivity.
    + destruct (Stream.kind_hidden Stream.DEFAULT_HIDDEN last);
        simpl; rewrite ?Hu; reflexivity.
  - unfold Memory.get_last_agent_message.
    rewrite (view_at_latest w evs last true None Hwf Hev Hempty Hstart)
      by discriminate.
    destruct (is_agent_message last) eqn:Hu.
    + rewrite message_not_hidden by (unfold is_agent_message in Hu;
        destruct (payload last) as [[]|]; try discriminate; eauto).
      simpl. rewrite Hu. reflexivity.
    + destruct (Stream.kind_hidden Stream.DEFAULT_HIDDEN last);
        simpl; rewrite ?Hu; reflexivity.
  - unfold Memory.get_last_events, Stream.get_latest_event_id.
    replace (Z.max (start_id (self w)) (cur_id (_event_stream w) - 1 - n + 1))
      with (start_id (self w)) by lia.
    apply (view_at_latest w evs last false _ Hwf Hev Hempty Hstart).
    intros b Hb. inversion Hb; subst. lia.
  - apply nothing_before_latest, Hstart.
  - apply nothing_before_latest, Hstart.
Qed.

(** X13.  [reset] keeps the latest event in view.  On a well-formed
    stream whose last event is [last], right after [reset] the last user
    or agent message is the content of [last] if it is one and the empty
    string otherwise; [get_last_events n] (n >= 1) is [last] alone, or
    empty when its kind is default-hidden; and [get_last_action] and
    [get_last_observation] with the default end id return [None]. *)
Theorem reset_view (w : World) (evs : list Event) (last : Event) (n : Z) :
  wf_stream (_event_stream w) ->
  events (_event_stream w) = evs ++ [last] ->
  1 <= n ->
  Memory.get_last_user_message (Memory.reset w)
  = (if is_user_message last then message_content last else "")
  /\ Memory.get_last_agent_message (Memory.reset w)
     = (if is_agent_message last then message_content last else "")
  /\ Memory.get_last_events (Memory.reset w) n
     = (if Stream.kind_hidden Stream.DEFAULT_HIDDEN last then [] else [last])
  /\ Memory.get_last_action (Memory.reset w) (-1) = None
  /\ Memory.get_last_observation (Memory.reset w) (-1) = None.
Proof.
  intros Hwf Hev Hn.
  apply (view_queries (Memory.reset w) evs last n); auto.
Qed.

Lemma reset_view_witness :
  wf_stream (_event_stream Examples.two_tasks)
  /\ Memory.get_last_user_message (Memory.reset Examples.two_tasks)
     = "please hurry".
Proof.
  assert (Hwf : wf_stream (_event_stream Examples.two_tasks))
    by wf_by_computation.
  split; [exact Hwf|].
  refine (proj1 (reset_view Examples.two_tasks
                   [ {| id := 0; source := USER;
                        payload := Examples.user_message "first task" |};
                     {| id := 1; source := USER;
                        payload := Act AgentFinishAction |};
                     {| id := 2; source := USER;
                        payload := Examples.user_message "second task" |} ]
                   {| id := 3; source := USER;
                      payload := Examples.user_message "please hurry" |}
                   1 Hwf _ _)).
  - vm_compute. reflexivity.
  - lia.
Defined.

(** X14.  A memory created on a non-empty well-formed stream starts
    with the same view: the last event alone. *)
Theorem init_view (es : EventStream) (logged0 : list LogRecord)
    (evs : list Event) (last : Event) (n : Z) :
  wf_stream es ->
  events es = evs ++ [last] ->
  1 <= n ->
  Memory.get_last_user_message (Memory.init es logged0)
  = (if is_user_message last then message_content last else "")
  /\ Memory.get_last_agent_message (Memory.init es logged0)
     = (if is_agent_message last then message_content last else "")
  /\ Memory.get_last_events (Memory.init es logged0) n
     = (if Stream.kind_hidden Stream.DEFAULT_HIDDEN last then [] else [last])
  /\ Memory.get_last_action (Memory.init es logged0) (-1) = None
  /\ Memory.get_last_observation (Memory.init es logged0) (-1) = None.
Proof.
  intros Hwf Hev Hn.
  apply (view_queries (Memory.init es logged0) evs last n); auto.
Qed.

Lemma init_view_witness :
  wf_stream (_event_stream Examples.two_tasks)
  /\ Memory.get_last_events
       (Memory.init (_event_stream Examples.two_tasks) []) 3
     = [ {| id := 3; source := USER;
            payload := Examples.user_message "please hurry" |} ].
Proof.
  assert (Hwf : wf_stream (_event_stream Examples.two_tasks))
    by wf_by_computation.
  split; [exact Hwf|].
  refine (proj1 (proj2 (proj2
            (init_view (_event_stream Examples.two_tasks) []
               [ {| id := 0; source := USER;
                    payload := Examples.user_message "first task" |};
                 {| id := 1; source := USER;
                    payload := Act AgentFinishAction |};
                 {| id := 2; source := USER;
                    payload := Examples.user_message "second task" |} ]
               {| id := 3; source := USER;
                  payload := Examples.user_message "please hurry" |}
               3 Hwf _ _)))).
  - vm_compute. reflexivity.
  - lia.
Defined.

(** ** [get_current_user_intent], case by case *)

(** X15.  When the default traversal shows no finish action,
    [get_current_user_intent] returns a pair: the content and image urls
    of the first visible user message in stream order, or [None] and the
    empty list when there is no visible user message. *)
Theorem current_user_intent_without_finish (w : World) :
  (forall ev, In ev (Memory.get_events w false false) -> is_finish ev = false) ->
  Memory.get_current_user_intent w
  = match List.find is_user_message (Memory.get_events w false false) with
    | Some ev => ReturnPair (Some (message_content ev)) (message_images_urls ev)
    | None => ReturnPair None (Some [])
    end.
Proof.
  intros Hno. unfold Memory.get_current_user_intent.
  rewrite current_user_intent_loop_no_finish.
  - unfold Memory.get_events, Memory.stream_events.
    rewrite get_events_forward_of_reverse. reflexivity.
  - intros ev Hin. apply Hno. unfold Memory.get_events, Memory.stream_events.
    rewrite <- get_events_forward_of_reverse. apply in_rev.
    rewrite rev_involutive. exact Hin.
Qed.

Lemma current_user_intent_without_finish_witness :
  (forall ev, In ev (Memory.get_events Scenarios.agent_reply false false) ->
              is_finish ev = false)
  /\ Memory.get_current_user_intent Scenarios.agent_reply
     = ReturnPair (Some "task") None.
Proof.
  assert (H : forall ev,
             In ev (Memory.get_events Scenarios.agent_reply false false) ->
             is_finish ev = false).
  { intros ev Hin. vm_compute in Hin.
    repeat (destruct Hin as [<-|Hin]; [reflexivity|]). destruct Hin. }
  split; [exact H|].
  rewrite (current_user_intent_without_finish Scenarios.agent_reply H).
  vm_compute. reflexivity.
Defined.

Lemma current_user_intent_loop_finish ev evs m u :
  is_finish ev = true ->
  Memory.current_user_intent_loop (ev :: evs) m u
  = match m with
    | Some t => ReturnText t
    | None => Memory.current_user_intent_loop evs None u
    end.
Proof.
  unfold is_finish. simpl.
  destruct (payload ev) as [[]|]; intros H; try discriminate.
  destruct (source ev), m; reflexivity.
Qed.

Lemma user_message_not_finish ev :
  is_user_message ev = true -> is_finish ev = true -> False.
Proof.
  unfold is_user_message, is_finish.
  destruct (payload ev) as [[]|]; destruct (source ev); discriminate.
Qed.

(** The loop returns the bare text exactly when it meets a finish
    action with a user message in hand. *)
Lemma current_user_intent_loop_text (evs : list Event) m u :
  (exists t, Memory.current_user_intent_loop evs m u = ReturnText t)
  <-> exists l1 f l2,
        evs = l1 ++ f :: l2 /\ is_finish f = true
        /\ (m <> None
            \/ exists um, In um l1 /\ is_user_message um = true).
Proof.
  revert m u. induction evs as [|ev evs IH]; intros m u.
  - split.
    + intros [t Ht]. discriminate.
    + intros (l1 & f & l2 & Hl & _). destruct l1; discriminate.
  - destruct (is_user_message ev) eqn:Hu; [|destruct (is_finish ev) eqn:Hf].
    + rewrite current_user_intent_loop_user by exact Hu. rewrite IH. split.
      * intros (l1 & f & l2 & -> & Hfin & _).
        exists (ev :: l1), f, l2. split; [reflexivity|]. split; [exact Hfin|].
        right. exists ev. split; [now left|exact Hu].
      * intros (l1 & f & l2 & Hl & Hfin & _). destruct l1 as [|x l1].
        -- simpl in Hl. inversion Hl; subst.
           destruct (user_message_not_finish _ Hu Hfin).
        -- simpl in Hl. inversion Hl; subst.
           exists l1, f, l2. split; [reflexivity|]. split; [exact Hfin|].
           left. discriminate.
    + rewrite current_user_intent_loop_finish by exact Hf.
      destruct m as [t|].
      * split; [|eauto]. intros _. exists [], ev, evs.
        split; [reflexivity|]. split; [exact Hf|]. left. discriminate.
      * rewrite IH. split.
        -- intros (l1 & f & l2 & -> & Hfin & [Hm|(um & Hin & Hum)]);
             [congruence|].
           exists (ev :: l1), f, l2. split; [reflexivity|].
           split; [exact Hfin|]. right. exists um. split; [now right|exact Hum].
        -- intros (l1 & f & l2 & Hl & Hfin & [Hm|(um & Hin & Hum)]);
             [congruence|].
           destruct l1 as [|x l1]; [destruct Hin|].
           simpl in Hl. inversion Hl; subst.
           exists l1, f, l2. split; [reflexivity|]. split; [exact Hfin|].
           right. exists um. split; [|exact Hum].
           destruct Hin as [<-|Hin]; [congruence|exact Hin].
    + rewrite current_user_intent_loop_skip by assumption. rewrite IH. split.
      * intros (l1 & f & l2 & -> & Hfin & Hm).
        exists (ev :: l1), f, l2. split; [reflexivity|]. split; [exact Hfin|].
        destruct Hm as [Hm|(um & Hin & Hum)]; [now left|].
        right. exists um. split; [now right|exact Hum].
      * intros (l1 & f & l2 & Hl & Hfin & Hm). destruct l1 as [|x l1].
        -- simpl in Hl. inversion Hl; subst. congruence.
        -- simpl in Hl. inversion Hl; subst.
           exists l1, f, l2. split; [reflexivity|]. split; [exact Hfin|].
           destruct Hm as [Hm|(um & Hin & Hum)]; [now left|].
           right. exists um. split; [|exact Hum].
           destruct Hin as [<-|Hin]; [congruence|exact Hin].
Qed.

Lemma sorted_ids_split (a b : list Event) (x : Event) :
  StronglySorted Z.lt (map id (a ++ x :: b)) ->
  (forall y, In y a -> id y < id x) /\ (forall y, In y b -> id x < id y).
Proof.
  intros Hs. rewrite map_app in Hs. simpl in Hs. split; intros y Hy.
  - apply (StronglySorted_app_1_elem_of Z.lt _ _ (id y) (id x)) in Hs;
      [exact Hs| |left].
    apply list_elem_of_In, in_map, Hy.
  - apply StronglySorted_app_1_r in Hs. inversion Hs as [|? ? _ Hall]; subst.
    rewrite Forall_forall in Hall. apply Hall, list_elem_of_In, in_map, Hy.
Qed.

(** X16.  On a well-formed stream, [get_current_user_intent] returns the
    bare message text, and not a pair, exactly when the default
    traversal shows a finish action and, after it, a user message. *)
Theorem current_user_intent_bare_text_iff (w : World) :
  wf_stream (_event_stream w) ->
  (exists t, Memory.get_current_user_intent w = ReturnText t)
  <-> exists f um,
        In f (Memory.get_events w false false)
        /\ In um (Memory.get_events w false false)
        /\ is_finish f = true /\ is_user_message um = true
        /\ id f < id um.
Proof.
  intros Hwf. unfold Memory.get_current_user_intent.
  rewrite current_user_intent_loop_text.
  assert (Hrev : rev (Memory.stream_events w None None true false)
                 = Memory.get_events w false false).
  { unfold Memory.get_events, Memory.stream_events.
    apply get_events_forward_of_reverse. }
  assert (Hsorted : StronglySorted Z.lt
                      (map id (Memory.get_events w false false))).
  { unfold Memory.get_events, Memory.stream_events, Stream.get_events.
    apply ascending_ids_sorted, wf_ids_sorted, Hwf. }
  split.
  - intros (l1 & f & l2 & Hl & Hfin & [Hm|(um & Hin & Hum)]); [congruence|].
    rewrite <- Hrev, Hl, rev_app_distr in Hsorted |- *.
    simpl in Hsorted |- *. rewrite <- app_assoc in Hsorted |- *.
    simpl in Hsorted |- *.
    destruct (sorted_ids_split _ _ _ Hsorted) as [_ Hgt].
    exists f, um. split; [apply in_elt|]. split.
    + apply in_app_iff. right. right. apply in_rev.
      rewrite rev_involutive. exact Hin.
    + split; [exact Hfin|]. split; [exact Hum|].
      apply Hgt, in_rev. rewrite rev_involutive. exact Hin.
  - intros (f & um & Hf & Hum & Hfin & Husr & Hlt).
    destruct (in_split _ _ Hf) as (a & b & Hab).
    rewrite Hab in Hsorted, Hum.
    destruct (sorted_ids_split _ _ _ Hsorted) as [Hbefore _].
    exists (rev b), f, (rev a). split.
    + rewrite <- (rev_involutive (Memory.stream_events _ _ _ _ _)), Hrev, Hab.
      rewrite rev_app_distr. simpl. rewrite <- app_assoc. reflexivity.
    + split; [exact Hfin|]. right. exists um. split; [|exact Husr].
      apply in_app_iff in Hum. destruct Hum as [Hum|[Hum|Hum]].
      * specialize (Hbefore um Hum). lia.
      * subst um. lia.
      * apply in_rev. rewrite rev_involutive. exact Hum.
Qed.

Lemma current_user_intent_bare_text_iff_witness :
  wf_stream (_event_stream Examples.two_tasks)
  /\ exists t, Memory.get_current_user_intent Examples.two_tasks = ReturnText t.
Proof.
  assert (Hwf : wf_stream (_event_stream Examples.two_tasks))
    by wf_by_computation.
  split; [exact Hwf|].
  apply (proj2 (current_user_intent_bare_text_iff Examples.two_tasks Hwf)).
  exists {| id := 1; source := USER; payload := Act AgentFinishAction |},
         {| id := 2; source := USER;
            payload := Examples.user_message "second task" |}.
  split; [vm_compute; tauto|]. split; [vm_compute; tauto|].
  split; [reflexivity|]. split; [reflexivity|]. simpl. lia.
Defined.

(** ** The planner's history *)

Lemma history_loop_take (HISTORY_SIZE : Z) (Dict : Type)
    (event_to_memory : Event -> Z -> Dict) (max_message_chars : Z)
    (evs : list Event) (event_count : Z) (history_dicts : list Dict) :
  history_loop HISTORY_SIZE Dict event_to_memory max_message_chars
    evs event_count history_dicts
  = history_dicts
    ++ map (fun ev => event_to_memory ev max_message_chars)
         (take (Z.to_nat (HISTORY_SIZE - event_count)) evs).
Proof.
  revert event_count history_dicts.
  induction evs as [|ev evs IH]; intros c acc; simpl.
  - rewrite take_nil. simpl. now rewrite app_nil_r.
  - destruct (HISTORY_SIZE <=? c) eqn:Hc.
    + apply Z.leb_le in Hc.
      replace (Z.to_nat (HISTORY_SIZE - c)) with 0%nat by lia.
      simpl. now rewrite app_nil_r.
    + apply Z.leb_gt in Hc. rewrite IH.
      replace (Z.to_nat (HISTORY_SIZE - c))
        with (S (Z.to_nat (HISTORY_SIZE - (c + 1)))) by lia.
      simpl. rewrite <- app_assoc. reflexivity.
Qed.

(** X17.  [_get_history_str] serialises the last [HISTORY_SIZE] events of
    the default forward traversal, in stream order; with fewer visible
    events it serialises them all, and with [HISTORY_SIZE <= 0] none. *)
Theorem get_history_str_recent_suffix (HISTORY_SIZE : Z) (Dict : Type)
    (event_to_memory : Event -> Z -> Dict) (max_message_chars : Z)
    (json_dumps : list Dict -> string) (w : World) :
  _get_history_str HISTORY_SIZE Dict event_to_memory max_message_chars
    json_dumps w
  = json_dumps
      (map (fun ev => event_to_memory ev max_message_chars)
         (drop (length (Memory.get_events w false false)
                - Z.to_nat HISTORY_SIZE)
            (Memory.get_events w false false))).
Proof.
  unfold _get_history_str. rewrite history_loop_take, app_nil_l.
  rewrite Z.sub_0_r. f_equal. rewrite <- map_rev. f_equal.
  assert (HL : Memory.get_events w true false
               = rev (Memory.get_events w false false)).
  { unfold Memory.get_events, Memory.stream_events.
    rewrite <- get_events_forward_of_reverse, rev_involutive. reflexivity. }
  rewrite HL, firstn_rev, rev_involutive. reflexivity.
Qed.

(** ** Runtime lookup *)

(** X18.  [get_runtime_cls] returns a class for exactly the names
    ['eventstream'], ['e2b'] and ['remote'], a different class for each;
    every other name (the comparison is exact, so ['E2B'] too) raises a
    [ValueError] whose message quotes the name. *)
Theorem get_runtime_cls_cases (name : string) :
  (get_runtime_cls name = inl EventStreamRuntime <-> name = "eventstream")
  /\ (get_runtime_cls name = inl E2BRuntime <-> name = "e2b")
  /\ (get_runtime_cls name = inl RemoteRuntime <-> name = "remote")
  /\ (name <> "eventstream" -> name <> "e2b" -> name <> "remote" ->
      get_runtime_cls name
      = inr (ValueError ("Runtime " ++ name ++ " not supported")))
  /\ get_runtime_cls "E2B" = inr (ValueError "Runtime E2B not supported").
Proof.
  unfold get_runtime_cls.
  destruct (String.eqb_spec name "eventstream") as [->|H1].
  { repeat split; try discriminate; try reflexivity; congruence. }
  destruct (String.eqb_spec name "e2b") as [->|H2].
  { repeat split; try discriminate; try reflexivity; congruence. }
  destruct (String.eqb_spec name "remote") as [->|H3].
  { repeat split; try discriminate; try reflexivity; congruence. }
  repeat split; try discriminate; try reflexivity; congruence.
Qed.

Lemma get_runtime_cls_cases_witness :
  "docker" <> "eventstream" /\ "docker" <> "e2b" /\ "docker" <> "remote"
  /\ get_runtime_cls "docker"
     = inr (ValueError "Runtime docker not supported").
Proof.
  assert (H1 : "docker" <> "eventstream") by discriminate.
  assert (H2 : "docker" <> "e2b") by discriminate.
  assert (H3 : "docker" <> "remote") by discriminate.
  split; [exact H1|]. split; [exact H2|]. split; [exact H3|].
  exact (proj1 (proj2 (proj2 (proj2 (get_runtime_cls_cases "docker"))))
           H1 H2 H3).
Defined.

(** ** [ConversationMemory.get_events] *)



(** With a message in hand, the loop returns at the first finish
    action, with the last user message met before it. *)
Lemma current_user_intent_loop_some (evs : list Event) s u t :
  Memory.current_user_intent_loop evs (Some s) u = ReturnText t ->
  exists l1 f l2,
    evs = l1 ++ f :: l2 /\ is_finish f = true
    /\ (forall x, In x l1 -> is_finish x = false)
    /\ ((t = s /\ forall x, In x l1 -> is_user_message x = false)
        \/ exists a um b,
             l1 = a ++ um :: b /\ is_user_message um = true
             /\ t = message_content um
             /\ forall x, In x b -> is_user_message x = false).
Proof.
  revert s u. induction evs as [|ev evs IH]; intros s u Ht; [discriminate|].
  destruct (is_user_message ev) eqn:Hu; [|destruct (is_finish ev) eqn:Hf].
  - rewrite current_user_intent_loop_user in Ht by exact Hu.
    destruct (IH _ _ Ht) as (l1 & f & l2 & -> & Hfin & Hnf & Hcase).
    exists (ev :: l1), f, l2. split; [reflexivity|]. split; [exact Hfin|].
    split.
    + intros x [<-|Hx]; [|auto].
      destruct (is_finish ev) eqn:Hf; [|reflexivity].
      destruct (user_message_not_finish _ Hu Hf).
    + right. destruct Hcase as [[-> Hnu]|(a & um & b & -> & Hum & -> & Hb)].
      * exists [], ev, l1. repeat split; auto.
      * exists (ev :: a), um, b. repeat split; auto.
  - rewrite current_user_intent_loop_finish in Ht by exact Hf.
    inversion Ht; subst. exists [], ev, evs. split; [reflexivity|].
    split; [exact Hf|]. split; [intros x []|]. left. split; [reflexivity|].
    intros x [].
  - rewrite current_user_intent_loop_skip in Ht by assumption.
    destruct (IH _ _ Ht) as (l1 & f & l2 & -> & Hfin & Hnf & Hcase).
    exists (ev :: l1), f, l2. split; [reflexivity|]. split; [exact Hfin|].
    split; [intros x [<-|Hx]; auto|].
    destruct Hcase as [[-> Hnu]|(a & um & b & -> & Hum & -> & Hb)].
    + left. split; [reflexivity|]. intros x [<-|Hx]; auto.
    + right. exists (ev :: a), um, b. repeat split; auto.
Qed.

(** With no message in hand, the loop runs to the first user message. *)
Lemma current_user_intent_loop_none (evs : list Event) u t :
  Memory.current_user_intent_loop evs None u = ReturnText t ->
  exists l0 u1 rest,
    evs = l0 ++ u1 :: rest /\ is_user_message u1 = true
    /\ (forall x, In x l0 -> is_user_message x = false)
    /\ Memory.current_user_intent_loop rest (Some (message_content u1))
         (message_images_urls u1) = ReturnText t.
Proof.
  revert u. induction evs as [|ev evs IH]; intros u Ht; [discriminate|].
  destruct (is_user_message ev) eqn:Hu; [|destruct (is_finish ev) eqn:Hf].
  - rewrite current_user_intent_loop_user in Ht by exact Hu.
    exists [], ev, evs. split; [reflexivity|]. split; [exact Hu|].
    split; [intros x []|exact Ht].
  - rewrite current_user_intent_loop_finish in Ht by exact Hf.
    destruct (IH _ Ht) as (l0 & u1 & rest & -> & Hu1 & Hno & Hrest).
    exists (ev :: l0), u1, rest. split; [reflexivity|]. split; [exact Hu1|].
    split; [intros x [<-|Hx]; auto|exact Hrest].
  - rewrite current_user_intent_loop_skip in Ht by assumption.
    destruct (IH _ Ht) as (l0 & u1 & rest & -> & Hu1 & Hno & Hrest).
    exists (ev :: l0), u1, rest. split; [reflexivity|]. split; [exact Hu1|].
    split; [intros x [<-|Hx]; auto|exact Hrest].
Qed.

(** The shape of a reverse traversal that makes the loop return the
    bare text. *)
Lemma current_user_intent_loop_shape (evs : list Event) u t :
  Memory.current_user_intent_loop evs None u = ReturnText t ->
  exists la um lb f l2,
    evs = la ++ um :: lb ++ f :: l2
    /\ is_user_message um = true /\ t = message_content um
    /\ is_finish f = true
    /\ (forall x, In x lb ->
          is_user_message x = false /\ is_finish x = false)
    /\ (forall f', In f' la -> is_finish f' = true ->
          exists a1 a2, la = a1 ++ f' :: a2
                        /\ forall x, In x a1 -> is_user_message x = false).
Proof.
  intros Ht.
  destruct (current_user_intent_loop_none _ _ _ Ht)
    as (l0 & u1 & rest & -> & Hu1 & Hno & Hrest).
  destruct (current_user_intent_loop_some _ _ _ _ Hrest)
    as (l1 & f & l2 & -> & Hfin & Hnf
        & [[-> Hnu]|(a & um & b & -> & Hum & -> & Hb)]).
  - exists l0, u1, l1, f, l2. split; [reflexivity|]. split; [exact Hu1|].
    split; [reflexivity|]. split; [exact Hfin|]. split; [auto|].
    intros f' Hf' Hfin'. destruct (in_split _ _ Hf') as (a1 & a2 & ->).
    exists a1, a2. split; [reflexivity|].
    intros x Hx. apply Hno, in_app_iff. now left.
  - exists (l0 ++ u1 :: a), um, b, f, l2. split.
    + repeat (rewrite <- app_assoc || rewrite <- app_comm_cons).
      reflexivity.
    + split; [exact Hum|]. split; [reflexivity|]. split; [exact Hfin|].
      split.
      * intros x Hx. split; [auto|]. apply Hnf, in_app_iff. right. now right.
      * intros f' Hf' Hfin'. apply in_app_iff in Hf'.
        destruct Hf' as [Hf'|[<-|Hf']].
        -- destruct (in_split _ _ Hf') as (a1 & a2 & ->).
           exists a1, (a2 ++ u1 :: a). split;
             [repeat (rewrite <- app_assoc || rewrite <- app_comm_cons);
              reflexivity|].
           intros x Hx. apply Hno, in_app_iff. now left.
        -- destruct (user_message_not_finish _ Hu1 Hfin').
        -- rewrite (Hnf f') in Hfin' by (apply in_app_iff; now left).
           discriminate.
Qed.

Lemma sorted_ids_after (a b : list Event) (x y : Event) :
  StronglySorted Z.lt (map id (a ++ x :: b)) ->
  In y (a ++ x :: b) -> id x < id y -> In y b.
Proof.
  intros Hs Hy Hlt. destruct (sorted_ids_split _ _ _ Hs) as [Hbefore _].
  apply in_app_iff in Hy. destruct Hy as [Hy|[<-|Hy]]; [|lia|exact Hy].
  specialize (Hbefore y Hy). lia.
Qed.

Lemma sorted_ids_before (a b : list Event) (x y : Event) :
  StronglySorted Z.lt (map id (a ++ x :: b)) ->
  In y (a ++ x :: b) -> id y < id x -> In y a.
Proof.
  intros Hs Hy Hlt. destruct (sorted_ids_split _ _ _ Hs) as [_ Hafter].
  apply in_app_iff in Hy. destruct Hy as [Hy|[<-|Hy]]; [exact Hy|lia|].
  specialize (Hafter y Hy). lia.
Qed.

Lemma sorted_ids_tail (a b : list Event) :
  StronglySorted Z.lt (map id (a ++ b)) -> StronglySorted Z.lt (map id b).
Proof. rewrite map_app. apply StronglySorted_app_1_r. Qed.

(** X20.  On a well-formed stream, when [get_current_user_intent]
    returns the bare text, the text is the content of the first visible
    user message after a visible finish action: nothing visible between
    the two is a user message or a finish action, and no visible finish
    action after that message has a visible user message after it. *)
Theorem current_user_intent_bare_text_is (w : World) (t : string) :
  wf_stream (_event_stream w) ->
  Memory.get_current_user_intent w = ReturnText t ->
  exists f um,
    In f (Memory.get_events w false false)
    /\ In um (Memory.get_events w false false)
    /\ is_finish f = true /\ is_user_message um = true
    /\ id f < id um /\ t = message_content um
    /\ (forall x, In x (Memory.get_events w false false) ->
          id f < id x < id um ->
          is_user_message x = false /\ is_finish x = false)
    /\ (forall f' x,
          In f' (Memory.get_events w false false) ->
          In x (Memory.get_events w false false) ->
          is_finish f' = true -> id um < id f' -> id f' < id x ->
          is_user_message x = false).
Proof.
  intros Hwf Ht. unfold Memory.get_current_user_intent in Ht.
  destruct (current_user_intent_loop_shape _ _ _ Ht)
    as (la & um & lb & f & l2 & HL & Hum & -> & Hfin & Hlb & Hla).
  assert (HV : Memory.get_events w false false
               = rev l2 ++ f :: rev lb ++ um :: rev la).
  { unfold Memory.get_events, Memory.stream_events.
    rewrite <- get_events_forward_of_reverse.
    unfold Memory.stream_events in HL. rewrite HL.
    rewrite rev_app_distr. simpl. rewrite rev_app_distr. simpl.
    repeat (rewrite <- app_assoc || rewrite <- app_comm_cons). reflexivity. }
  assert (Hsorted : StronglySorted Z.lt
                      (map id (Memory.get_events w false false))).
  { unfold Memory.get_events, Memory.stream_events, Stream.get_events.
    apply ascending_ids_sorted, wf_ids_sorted, Hwf. }
  rewrite HV in *.
  assert (Hsorted' : StronglySorted Z.lt (map id (rev lb ++ um :: rev la))).
  { apply (sorted_ids_tail (rev l2 ++ [f])). rewrite <- app_assoc. exact Hsorted. }
  assert (Hfum : id f < id um).
  { apply (proj2 (sorted_ids_split _ _ _ Hsorted)), in_elt. }
  exists f, um. split; [apply in_elt|]. split.
  { apply in_app_iff. right. right. apply in_elt. }
  split; [exact Hfin|]. split; [exact Hum|]. split; [exact Hfum|].
  split; [reflexivity|]. split.
  - intros x Hx [Hlo Hhi]. apply Hlb, in_rev.
    apply (sorted_ids_before _ _ um x Hsorted'); [|exact Hhi].
    exact (sorted_ids_after _ _ f x Hsorted Hx Hlo).
  - intros f' x Hf' Hx Hfin' Hlo Hlt.
    assert (Hf'la : In f' (rev la)).
    { apply (sorted_ids_after _ _ um f' Hsorted'); [|exact Hlo].
      apply (sorted_ids_after _ _ f f' Hsorted Hf'). lia. }
    assert (Hxla : In x (rev la)).
    { apply (sorted_ids_after _ _ um x Hsorted'); [|lia].
      apply (sorted_ids_after _ _ f x Hsorted Hx). lia. }
    destruct (Hla f' (proj2 (in_rev _ _) Hf'la) Hfin')
      as (a1 & a2 & Hsplit & Hno).
    assert (Hsla : StronglySorted Z.lt (map id (rev a2 ++ f' :: rev a1))).
    { apply (sorted_ids_tail (rev lb ++ [um])).
      rewrite <- app_assoc. simpl.
      replace (rev a2 ++ f' :: rev a1) with (rev la); [exact Hsorted'|].
      rewrite Hsplit, rev_app_distr. simpl. rewrite <- app_assoc.
      reflexivity. }
    apply Hno, in_rev.
    apply (sorted_ids_after _ _ f' x Hsla); [|exact Hlt].
    replace (rev a2 ++ f' :: rev a1) with (rev la); [exact Hxla|].
    rewrite Hsplit, rev_app_distr. simpl. rewrite <- app_assoc. reflexivity.
Qed.

Lemma current_user_intent_bare_text_is_witness :
  wf_stream (_event_stream Examples.two_tasks)
  /\ Memory.get_current_user_intent Examples.two_tasks
     = ReturnText "second task"
  /\ exists f um,
       In f (Memory.get_events Examples.two_tasks false false)
       /\ In um (Memory.get_events Examples.two_tasks false false)
       /\ is_finish f = true /\ is_user_message um = true
       /\ id f < id um /\ "second task" = message_content um.
Proof.
  assert (Hwf : wf_stream (_event_stream Examples.two_tasks))
    by wf_by_computation.
  assert (Ht : Memory.get_current_user_intent Examples.two_tasks
               = ReturnText "second task") by (vm_compute; reflexivity).
  split; [exact Hwf|]. split; [exact Ht|].
  destruct (current_user_intent_bare_text_is Examples.two_tasks
              "second task" Hwf Ht)
    as (f & um & H1 & H2 & H3 & H4 & H5 & H6 & _).
  exists f, um. repeat split; assumption.
Defined.

(** ** Appending, then asking *)

Lemma reachable_start_offset w :
  reachable w -> start_id (self w) <= cur_id (_event_stream w) - 1.
Proof.
  induction 1 as [es l Hwf|w p src Hw IH|w ev Hw IH Hin|w Hw IH].
  - simpl. unfold Stream.get_latest_event_id. simpl. lia.
  - simpl. lia.
  - destruct (on_event_frame w ev) as [Hes Hst]. rewrite Hes, Hst. exact IH.
  - simpl. unfold Stream.get_latest_event_id. lia.
Qed.

(** In a reachable state the appended event is within every
    offset-bounded default traversal that has no upper bound below it. *)
Lemma append_offset_traversal w p src lo hi :
  reachable w ->
  lo <= cur_id (_event_stream w) ->
  (forall b, hi = Some b -> cur_id (_event_stream w) <= b) ->
  let ev := snd (Stream.add_event (_event_stream w) p src) in
  Memory.stream_events (append w p src) (Some lo) hi false false
  = Memory.stream_events w (Some lo) hi false false
    ++ (if Stream.kind_hidden Stream.DEFAULT_HIDDEN ev then [] else [ev]).
Proof.
  intros Hreach Hlo Hhi ev.
  destruct (reachable_invariants w Hreach) as (_ & Hhide & _).
  unfold Memory.stream_events, Stream.get_events.
  change (events (_event_stream (append w p src)))
    with (events (_event_stream w) ++ [ev]).
  change (delegates (self (append w p src))) with (delegates (self w)).
  rewrite ascending_app. f_equal. rewrite ascending_singleton.
  unfold Stream.emits.
  change (id ev) with (cur_id (_event_stream w)).
  assert (Hb : Stream.in_bounds (Some lo) hi (cur_id (_event_stream w)) = true).
  { apply in_bounds_true. split.
    - intros b Hb. inversion Hb; subst. exact Hlo.
    - exact Hhi. }
  assert (Hout : Stream.strictly_inside (delegates (self w))
                   (cur_id (_event_stream w)) = false).
  { apply strictly_inside_false. intros s e Hs Hlt.
    destruct (Hhide s e Hs) as [He _]. lia. }
  rewrite Hb, Hout, andb_false_r. simpl negb.
  destruct (Stream.kind_hidden Stream.DEFAULT_HIDDEN ev); reflexivity.
Qed.

Lemma reverse_of_forward w lo hi :
  Memory.stream_events w lo hi true false
  = rev (Memory.stream_events w lo hi false false).
Proof. unfold Memory.stream_events, Stream.get_events. apply descending_rev. Qed.

Lemma find_message_appended w g content images_urls src :
  reachable w ->
  let p := Act (MessageAction content images_urls) in
  let ev := snd (Stream.add_event (_event_stream w) p src) in
  List.find g
    (Memory.stream_events (append w p src)
       (Some (start_id (self (append w p src)))) None true false)
  = if g ev then Some ev
    else List.find g
           (Memory.stream_events w (Some (start_id (self w))) None true false).
Proof.
  intros Hreach p ev.
  pose proof (reachable_start_offset w Hreach) as Hst.
  change (start_id (self (append w p src))) with (start_id (self w)).
  rewrite reverse_of_forward.
  rewrite (append_offset_traversal w p src (start_id (self w)) None Hreach)
    by (try discriminate; lia).
  fold ev. rewrite (message_not_hidden ev) by (subst ev p; simpl; eauto).
  rewrite rev_app_distr. change (rev [ev]) with [ev].
  rewrite <- reverse_of_forward. reflexivity.
Qed.

(** X21.  In a reachable state, a message appended to the stream is read
    back at once: [get_last_user_message] returns the content of an
    appended user message and [get_last_agent_message] that of an
    appended agent message, while the other of the two is unchanged;
    and [get_last_events 1] is the appended event, or empty when its
    kind is default-hidden. *)
Theorem append_then_read
    (w : World) (content : string) (images_urls : option (list string)) :
  reachable w ->
  Memory.get_last_user_message
    (append w (Act (MessageAction content images_urls)) USER) = content
  /\ Memory.get_last_agent_message
       (append w (Act (MessageAction content images_urls)) AGENT) = content
  /\ Memory.get_last_agent_message
       (append w (Act (MessageAction content images_urls)) USER)
     = Memory.get_last_agent_message w
  /\ Memory.get_last_user_message
       (append w (Act (MessageAction content images_urls)) AGENT)
     = Memory.get_last_user_message w
  /\ forall p src,
       Memory.get_last_events (append w p src) 1
       = if Stream.kind_hidden Stream.DEFAULT_HIDDEN
              (snd (Stream.add_event (_event_stream w) p src))
         then []
         else [snd (Stream.add_event (_event_stream w) p src)].
Proof.
  intros Hreach.
  unfold Memory.get_last_user_message, Memory.get_last_agent_message.
  rewrite !(find_message_appended w _ content images_urls _ Hreach).
  split; [reflexivity|]. split; [reflexivity|]. split; [reflexivity|].
  split; [reflexivity|].
  intros p src.
  pose proof (reachable_start_offset w Hreach) as Hst.
  destruct (reachable_invariants w Hreach) as (Hwf & _ & _).
  unfold Memory.get_last_events, Stream.get_latest_event_id.
  change (start_id (self (append w p src))) with (start_id (self w)).
  change (cur_id (_event_stream (append w p src)))
    with (cur_id (_event_stream w) + 1).
  replace (Z.max (start_id (self w)) (cur_id (_event_stream w) + 1 - 1 - 1 + 1))
    with (cur_id (_event_stream w)) by lia.
  rewrite (append_offset_traversal w p src _ _ Hreach)
    by (try lia; intros b Hb; inversion Hb; lia).
  replace (Memory.stream_events w (Some (cur_id (_event_stream w)))
             (Some (cur_id (_event_stream w) + 1 - 1)) false false)
    with (@nil Event); [reflexivity|].
  symmetry. unfold Memory.stream_events, Stream.get_events.
  apply ascending_none. intros ev Hin.
  pose proof (wf_id_range _ _ Hwf Hin) as Hr.
  unfold Stream.emits, Stream.in_bounds.
  assert (Hlo : (cur_id (_event_stream w) <=? id ev) = false)
    by (apply Z.leb_gt; lia).
  rewrite Hlo. reflexivity.
Qed.

Lemma append_then_read_witness :
  reachable Examples.after_completion
  /\ Memory.get_last_user_message
       (append Examples.after_completion
          (Act (MessageAction "next task" None)) USER) = "next task".
Proof.
  split; [exact reachable_after_completion|].
  exact (proj1 (append_then_read Examples.after_completion "next task" None
                  reachable_after_completion)).
Defined.

(** ** What a recorded range hides *)


